(** * loopback-explorer: route-helper.js and translate-keys.js

    A shallow embedding of the two modules that turn a strong-remoting
    route into a Swagger 1.2 API declaration entry, and the properties of
    that conversion.

    Layout of the model
    - JavaScript values are the inductive [value]; nested objects that the
      code only reads (an [http] descriptor, an [items] descriptor, a
      [type] array) are immutable trees.
    - The objects that the code updates in place, the entries of
      [accepts] and [returns], live in a [store] and are named by
      locations, so that two arrays can hold the same object.
    - Code that reads or writes those objects runs in the monad [M]: a
      state monad over the store whose failure is a JavaScript exception.
    - The accumulating document is passed and returned explicitly. *)

From Stdlib Require Import ZArith Ascii String.
From stdpp Require Import gmap strings list fin_maps pretty.

#[local] Set Warnings "-register-all".
#[local] Open Scope string_scope.
#[local] Open Scope list_scope.
#[local] Open Scope Z_scope.

(** ** JavaScript values *)

(** Numbers are integers: the code never computes with a number, it only
    tests one for truthiness and prints it with [String]. A function value
    carries its source text, which is what [String] prints. *)
Inductive value : Type :=
  | VUndef
  | VNull
  | VBool (b : bool)
  | VNum (n : Z)
  | VStr (s : string)
  | VArr (elems : list value)
  | VObj (fields : gmap string value)
  | VFun (src : string).

Abbreviation props := (gmap string value).

(** [ToBoolean]: what [if (v)], [!v], [a && b] and [a || b] test. *)
Definition truthy (v : value) : bool :=
  match v with
  | VUndef | VNull => false
  | VBool b => b
  | VNum n => negb (n =? 0)
  | VStr s => negb (String.eqb s "")
  | VArr _ | VObj _ | VFun _ => true
  end.

(** [a || b] *)
Definition js_or (a b : value) : value := if truthy a then a else b.

(** [typeof v === 'function'] *)
Definition is_function (v : value) : bool :=
  match v with VFun _ => true | _ => false end.

(** [Array.isArray(v)] *)
Definition isArray (v : value) : bool :=
  match v with VArr _ => true | _ => false end.

(** [v === s] for a string literal [s]: strict equality, no coercion. *)
Definition str_eq (v : value) (s : string) : bool :=
  match v with VStr t => String.eqb t s | _ => false end.

(** ** Strings *)

Fixpoint js_join (sep : string) (l : list string) : string :=
  match l with
  | [] => ""
  | [s] => s
  | s :: rest => s +:+ sep +:+ js_join sep rest
  end.

(** [String(v)]. An array prints its elements separated by commas, with
    [null] and [undefined] elements printed as the empty string. *)
Fixpoint ToString (v : value) : string :=
  match v with
  | VUndef => "undefined"
  | VNull => "null"
  | VBool true => "true"
  | VBool false => "false"
  | VNum n => pretty n
  | VStr s => s
  | VArr es =>
      js_join ","
        ((fix elems (l : list value) : list string :=
            match l with
            | [] => []
            | VUndef :: l' | VNull :: l' => "" :: elems l'
            | e :: l' => ToString e :: elems l'
            end) es)
  | VObj _ => "[object Object]"
  | VFun src => src
  end.

(** [s.split(sep)] for a one-character separator. *)
Fixpoint js_split (sep : ascii) (s : string) : list string :=
  match s with
  | EmptyString => [""]
  | String c s' =>
      if Ascii.eqb c sep then "" :: js_split sep s'
      else match js_split sep s' with
           | [] => [String c ""]
           | w :: ws => String c w :: ws
           end
  end.

Definition lower_char (c : ascii) : ascii :=
  let n := nat_of_ascii c in
  if ((65 <=? n) && (n <=? 90))%nat then ascii_of_nat (n + 32) else c.

Definition upper_char (c : ascii) : ascii :=
  let n := nat_of_ascii c in
  if ((97 <=? n) && (n <=? 122))%nat then ascii_of_nat (n - 32) else c.

Fixpoint map_chars (f : ascii -> ascii) (s : string) : string :=
  match s with
  | EmptyString => EmptyString
  | String c s' => String (f c) (map_chars f s')
  end.

(** [s.toLowerCase()] and [s.toUpperCase()], on the ASCII letters. *)
Definition toLowerCase (s : string) : string := map_chars lower_char s.
Definition toUpperCase (s : string) : string := map_chars upper_char s.

(** [s.replace(/\./g, '_')] *)
Definition replace_dots (s : string) : string :=
  map_chars (fun c => if Ascii.eqb c "." then "_"%char else c) s.

Fixpoint starts_with (p s : string) : bool :=
  match p, s with
  | EmptyString, _ => true
  | String a p', String b s' => Ascii.eqb a b && starts_with p' s'
  | String _ _, EmptyString => false
  end.

(** [s.indexOf(sub) !== -1] *)
Fixpoint includes (sub s : string) : bool :=
  starts_with sub s ||
  match s with
  | EmptyString => false
  | String _ s' => includes sub s'
  end.

(** ** Property access on values *)

(** [v.k] where [v] is known to be truthy, so the access cannot throw: a
    plain object yields the field or [undefined], every other truthy value
    (a string, a number, an array, a function) has no such field. Both
    call sites in route-helper.js sit behind a truthiness test of [v]. *)
Definition prop (v : value) (k : string) : value :=
  match v with
  | VObj m => default VUndef (m !! k)
  | _ => VUndef
  end.

(** [o.k] on the field map of an object. *)
Definition field (o : props) (k : string) : value := default VUndef (o !! k).

(** ** Exceptions, the store and the monad *)

Inductive error : Type :=
  | TypeError      (* a property read on [undefined] or [null] *)
  | DanglingRef.   (* the model's own: a location that names no object *)

Inductive result (A : Type) : Type :=
  | Ok (a : A)
  | Throw (e : error).
Arguments Ok {A} a.
Arguments Throw {A} e.

Abbreviation loc := nat.
Abbreviation store := (gmap nat (gmap string value)).

Definition M (A : Type) : Type := store -> result (A * store).

#[global] Instance M_ret : MRet M := fun A a σ => Ok (a, σ).
#[global] Instance M_bind : MBind M := fun A B f m σ =>
  match m σ with
  | Ok (a, σ') => f a σ'
  | Throw e => Throw e
  end.

Definition throw {A} (e : error) : M A := fun _ => Throw e.

(** Dereference an object. *)
Definition read (l : loc) : M props := fun σ =>
  match σ !! l with
  | Some o => Ok (o, σ)
  | None => Throw DanglingRef
  end.

(** Overwrite the fields of an existing object, in place. *)
Definition write (l : loc) (o : props) : M unit := fun σ =>
  match σ !! l with
  | Some _ => Ok (tt, <[l := o]> σ)
  | None => Throw DanglingRef
  end.

(** Create a new object. *)
Definition alloc (o : props) : M loc := fun σ =>
  let l := fresh (dom σ) in Ok (l, <[l := o]> σ).

(** [arr.map(f)] *)
Fixpoint mapM {A B} (f : A -> M B) (l : list A) : M (list B) :=
  match l with
  | [] => mret []
  | x :: l' => y ← f x; ys ← mapM f l'; mret (y :: ys)
  end.

(** [arr.filter(f)] *)
Fixpoint filterM {A} (f : A -> M bool) (l : list A) : M (list A) :=
  match l with
  | [] => mret []
  | x :: l' => b ← f x; ys ← filterM f l'; mret (if b : bool then x :: ys else ys)
  end.

(** [[v[0]]]: the only indexing the code does on a value that may be
    missing. It throws on [undefined] and [null]. *)
Definition index0 (v : value) : result value :=
  match v with
  | VUndef | VNull => Throw TypeError
  | VStr (String c _) => Ok (VStr (String c ""))
  | VStr EmptyString => Ok VUndef
  | VArr (e :: _) => Ok e
  | VArr [] => Ok VUndef
  | VObj m => Ok (default VUndef (m !! "0"))
  | VBool _ | VNum _ | VFun _ => Ok VUndef
  end.

Definition lift {A} (r : result A) : M A := fun σ =>
  match r with
  | Ok a => Ok (a, σ)
  | Throw e => Throw e
  end.

(** ** translate-keys.js *)

(** Keys that are different between LDL and Swagger, in the order
    [Object.keys] lists them. *)
Definition KEY_TRANSLATIONS : list (string * string) :=
  [ ("doc", "description");
    ("default", "defaultValue");
    ("min", "minimum");
    ("max", "maximum") ].

(** The body of the [forEach] callback, on the fields of the object. *)
Definition translateKey (object : props) (entry : string * string) : props :=
  let LDLKey := entry.1 in
  let val := field object LDLKey in
  let object :=
    if truthy val then
      let val :=
        if String.eqb LDLKey "min" || String.eqb LDLKey "max"
        then VStr (ToString val) else val in
      <[entry.2 := val]> object
    else object in
  delete LDLKey object.

(** The callback as the code runs it: on the object itself. *)
Definition translateKey_at (object : loc) (entry : string * string) : M unit :=
  o ← read object; write object (translateKey o entry).

Fixpoint forEach {A} (f : A -> M unit) (l : list A) : M unit :=
  match l with
  | [] => mret tt
  | x :: l' => f x;; forEach f l'
  end.

Definition translateKeys (object : loc) : M loc :=
  forEach (translateKey_at object) KEY_TRANSLATIONS;;
  mret object.

(** What [translateKeys] leaves in the object. *)
Definition translated (o : props) : props :=
  foldl translateKey o KEY_TRANSLATIONS.

(** ** route-helper.js: the data *)

(** A strong-remoting route. [accepts] and [returns] are arrays of
    references to parameter and return descriptors, or are absent. *)
Record Route : Type := mkRoute {
  route_path : string;
  route_verb : string;
  route_method : string;
  route_accepts : option (list loc);
  route_returns : option (list loc);
  route_description : value
}.

Record SharedCtor : Type := mkSharedCtor {
  ctor_accepts : option (list loc)
}.

Record ClassDef : Type := mkClassDef {
  class_name : string;
  class_sharedCtor : option SharedCtor
}.

(** The object literal [out] of [acceptToParameter]; [items] is a field
    only when the parameter is an array. *)
Record SwaggerParameter : Type := mkSwaggerParameter {
  paramType : value;
  param_name : value;
  param_description : value;
  param_type : value;
  required : bool;
  defaultValue : value;
  minimum : value;
  maximum : value;
  allowMultiple : bool;
  param_items : option value
}.

Record Operation : Type := mkOperation {
  op_method : string;
  nickname : string;
  op_type : value;
  op_items : value;
  parameters : list SwaggerParameter;
  responseMessages : list value;
  summary : value;
  notes : string
}.

Record API : Type := mkAPI {
  api_path : string;
  operations : list Operation
}.

Record Document : Type := mkDocument {
  apis : list API
}.

Definition with_accepts (route : Route) (a : option (list loc)) : Route :=
  mkRoute (route_path route) (route_verb route) (route_method route)
          a (route_returns route) (route_description route).

Definition with_returns (route : Route) (r : option (list loc)) : Route :=
  mkRoute (route_path route) (route_verb route) (route_method route)
          (route_accepts route) r (route_description route).

(** ** lodash.clonedeep *)

(** [_cloneDeep(route)] copies every object reachable from the route into
    a new object. It remembers the objects it has copied, so an object
    that the route holds twice is copied once and stays shared in the
    copy. The fields of a descriptor are immutable values, so a copy of a
    descriptor is a new object with the same fields. *)
Fixpoint cloneList (ls : list loc) (seen : gmap nat nat)
  : M (list loc * gmap nat nat) :=
  match ls with
  | [] => mret ([], seen)
  | l :: ls' =>
      match seen !! l with
      | Some l' =>
          r ← cloneList ls' seen;
          mret (l' :: r.1, r.2)
      | None =>
          o ← read l;
          l' ← alloc o;
          r ← cloneList ls' (<[l := l']> seen);
          mret (l' :: r.1, r.2)
      end
  end.

Definition cloneArray (a : option (list loc)) (seen : gmap nat nat)
  : M (option (list loc) * gmap nat nat) :=
  match a with
  | None => mret (None, seen)
  | Some ls => r ← cloneList ls seen; mret (Some r.1, r.2)
  end.

Definition cloneDeep (route : Route) : M Route :=
  a ← cloneArray (route_accepts route) ∅;
  r ← cloneArray (route_returns route) a.2;
  mret (with_returns (with_accepts route a.1) r.1).

(** ** route-helper.js: doRouteParameterHacks *)

(** [classDef && classDef.sharedCtor && classDef.sharedCtor.accepts] *)
Definition sharedCtorAccepts (classDef : option ClassDef) : option (list loc) :=
  c ← classDef; s ← class_sharedCtor c; ctor_accepts s.

(** Lines 68-71: the arguments of the shared constructor are appended to
    those of a method whose name has more than two dot-separated parts. *)
Definition addSharedCtorAccepts (route : Route) (classDef : option ClassDef)
  : Route :=
  let split := js_split "." (route_method route) in
  match sharedCtorAccepts classDef with
  | Some shared =>
      if (2 <? length split)%nat
      then with_accepts route
             (Some (default [] (route_accepts route) ++ shared))
      else route
  | None => route
  end.

(** The callback of the filter of lines 75-82, on the fields of [arg]. *)
Definition shown (arg : props) : bool :=
  let http := field arg "http" in
  if negb (truthy http) then true
  else if is_function http then false
  else if str_eq (prop http "source") "req"
          || str_eq (prop http "source") "body" then false
  else true.

Definition shownArg (arg : loc) : M bool :=
  o ← read arg; mret (shown o).

(** [classDef.name]: a [TypeError] when there is no class. *)
Definition className (classDef : option ClassDef) : M string :=
  match classDef with
  | Some c => mret (class_name c)
  | None => throw TypeError
  end.

(** Lines 85-95: the first return descriptor of an auto-generated REST
    route is given the model's name. *)
Definition fixReturns (route : Route) (classDef : option ClassDef) : M unit :=
  match route_returns route ≫= head with
  | None => mret tt
  | Some returns =>
      o ← read returns;
      if str_eq (field o "arg") "data" then
        if str_eq (field o "type") "object" then
          name ← className classDef;
          write returns (<["type" := VStr name]> o)
        else if str_eq (field o "type") "array" then
          name ← className classDef;
          write returns
            (<["items" := VObj {[ "$ref" := VStr name ]}]>
               (<["type" := VStr "array"]> o))
        else mret tt
      else mret tt
  end.

Definition doRouteParameterHacks (route : Route) (classDef : option ClassDef)
  : M Route :=
  (* Don't modify the existing route as some pieces may be shared. *)
  route ← cloneDeep route;
  let route := addSharedCtorAccepts route classDef in
  kept ← filterM shownArg (default [] (route_accepts route));
  let route := with_accepts route (Some kept) in
  fixReturns route classDef;;
  (* Translate LDL keys to Swagger keys. *)
  accepts ← mapM translateKeys (default [] (route_accepts route));
  let route := with_accepts route (Some accepts) in
  returns ← mapM translateKeys (default [] (route_returns route));
  mret (with_returns route (Some returns)).

(** ** route-helper.js: routeToAPI *)

Definition convertPathFragments (path : string) : string :=
  js_join "/"
    (map (fun fragment : string =>
            match fragment with
            | String ":" rest => "{" +:+ rest +:+ "}"
            | _ => fragment
            end)
         (js_split "/" path)).

Definition convertVerb (verb : string) : string :=
  if String.eqb (toLowerCase verb) "all" then "POST"
  else if String.eqb (toLowerCase verb) "del" then "DELETE"
  else toUpperCase verb.

(** Converts from an sl-remoting data type to a Swagger dataType. *)
Definition prepareDataType (type : value) : value :=
  if negb (truthy type) then VStr "void"
  else if isArray type then VStr "array"
  else if str_eq type "buffer" then VStr "byte"
  else if str_eq type "date" then VStr "Date"
  else if str_eq type "number" then VStr "double"
  else type.

(** [route.method.split('.')[0]] *)
Definition methodOwner (route : Route) : string :=
  match js_split "." (route_method route) with
  | s :: _ => s
  | [] => ""
  end.

(** The default [paramType] that [acceptToParameter(route)] fixes before
    it returns the converter. *)
Definition defaultParamType (route : Route) : string :=
  if String.eqb (toLowerCase (route_verb route)) "get" then "query"
  else "form".

(** The converter that [acceptToParameter(route)] returns, on the fields
    of the descriptor. *)
Definition toParameter (route : Route) (accepts : props) : result SwaggerParameter :=
  let type := defaultParamType route in
  let name := js_or (field accepts "name") (field accepts "arg") in
  let paramType := VStr type in
  let paramType :=
    if includes (":" +:+ ToString name) (route_path route)
    then VStr "path" else paramType in
  let paramType :=
    if truthy (field accepts "http")
       && truthy (prop (field accepts "http") "source")
    then prop (field accepts "http") "source" else paramType in
  let out_type :=
    js_or (field accepts "model") (prepareDataType (field accepts "type")) in
  (* HACK: Derive the type from model *)
  let out_type :=
    if str_eq name "data" && str_eq out_type "object"
    then VStr (methodOwner route) else out_type in
  let out items :=
    mkSwaggerParameter (js_or paramType (VStr type)) name
                (field accepts "description") out_type
                (truthy (field accepts "required"))
                (field accepts "defaultValue")
                (field accepts "minimum") (field accepts "maximum")
                false items in
  if str_eq out_type "array" then
    match index0 (field accepts "type") with
    | Ok elem => Ok (out (Some (VObj {[ "type" := prepareDataType elem ]})))
    | Throw e => Throw e
    end
  else Ok (out None).

Definition acceptToParameter (route : Route) (accepts : loc) : M SwaggerParameter :=
  o ← read accepts; lift (toParameter route o).

Definition routeToAPI (route : Route) : M API :=
  returnDesc ← match route_returns route ≫= head with
               | Some l => o ← read l; mret (Some o)
               | None => mret None
               end;
  params ← match route_accepts route with
           | Some a => mapM (acceptToParameter route) a
           | None => mret []
           end;
  mret (mkAPI (convertPathFragments (route_path route))
          [ mkOperation
              (convertVerb (route_verb route))
              (replace_dots (route_method route))
              (match returnDesc with
               | Some o => js_or (field o "model")
                                 (prepareDataType (field o "type"))
               | None => VStr "void"
               end)
              (match returnDesc with
               | Some o => field o "items"
               | None => VStr ""
               end)
              params
              []
              (route_description route)
              "" ]).

(** ** route-helper.js: addRouteToDoc and the exported function *)

(** [matchingAPIs[0].operations.push(op)]: the first entry of [doc.apis]
    with the path [p] gets [op] at the end of its operations. *)
Fixpoint pushOperation (p : string) (op : Operation) (l : list API)
  : list API :=
  match l with
  | [] => []
  | existingAPI :: l' =>
      if decide (api_path existingAPI = p)
      then mkAPI (api_path existingAPI) (operations existingAPI ++ [op]) :: l'
      else existingAPI :: pushOperation p op l'
  end.

(** The document is updated in place; the model returns the updated
    document. [api.operations[0]] is the one operation that [routeToAPI]
    has just built, so the case of an [api] without operations does not
    arise. *)
Definition addRouteToDoc (route : Route) (doc : Document) : M Document :=
  api ← routeToAPI route;
  let matchingAPIs :=
    filter (fun existingAPI => api_path existingAPI = api_path api)
           (apis doc) in
  match matchingAPIs, operations api with
  | _ :: _, op :: _ => mret (mkDocument (pushOperation (api_path api) op (apis doc)))
  | _ :: _, [] => mret doc
  | [], _ => mret (mkDocument (apis doc ++ [api]))
  end.

Definition addRouteToAPIDeclaration
  (route : Route) (classDef : option ClassDef) (doc : Document) : M Document :=
  (* Some fixes to returns/accepts *)
  processedRoute ← doRouteParameterHacks route classDef;
  (* Add the api to the spec. *)
  addRouteToDoc processedRoute doc.

(** ** Vocabulary of the statements *)

(** The value written under the Swagger key for the LDL key [LDLKey]. *)
Definition stringified (LDLKey : string) (val : value) : value :=
  if String.eqb LDLKey "min" || String.eqb LDLKey "max"
  then VStr (ToString val) else val.

Definition LDLKeys : list string := KEY_TRANSLATIONS.*1.
Definition swaggerKeys : list string := KEY_TRANSLATIONS.*2.

(** ** Sample data *)

(** A parameter descriptor in LDL spelling, with a falsy default. *)
Definition limitParam : props :=
  {[ "arg" := VStr "limit"; "doc" := VStr "page size";
     "default" := VNum 0; "min" := VNum 1; "max" := VNum 50;
     "type" := VStr "number" ]}.

Definition limitStore : gmap nat (gmap string value) := {[ 7%nat := limitParam ]}.

(** A parameter named id on a route whose path has the segment :idle. *)
Definition idParam : props := {[ "arg" := VStr "id"; "type" := VStr "string" ]}.
Definition idleRoute : Route :=
  mkRoute "/widgets/:idle" "GET" "Widget.find" (Some [1%nat]) None VUndef.
Definition idStore : gmap nat (gmap string value) := {[ 1%nat := idParam ]}.

(** A parameter that declares [http.source] as the empty string. *)
Definition emptySourceParam : props :=
  {[ "arg" := VStr "x"; "http" := VObj {[ "source" := VStr "" ]} ]}.
Definition plainRoute : Route :=
  mkRoute "/widgets" "get" "Widget.find" (Some [1%nat]) None VUndef.
Definition emptySourceStore : gmap nat (gmap string value) :=
  {[ 1%nat := emptySourceParam ]}.

(** A parameter whose declared type is the string 'array'. *)
Definition tagsParam : props := {[ "arg" := VStr "tags"; "type" := VStr "array" ]}.

(** A class with a shared constructor that takes an id. *)
Definition ctorParam : props :=
  {[ "arg" := VStr "id"; "doc" := VStr "Model id"; "type" := VStr "any" ]}.
Definition widgetClass : ClassDef :=
  mkClassDef "Widget" (Some (mkSharedCtor (Some [0%nat]))).
Definition deepRoute : Route :=
  mkRoute "/widgets/:id/rename" "post" "Widget.prototype.rename"
          None None VUndef.
Definition ctorStore : gmap nat (gmap string value) := {[ 0%nat := ctorParam ]}.

(** The number of occurrences of a character in a string. *)
Fixpoint occurrences (c : ascii) (s : string) : nat :=
  match s with
  | EmptyString => 0%nat
  | String d s' => ((if Ascii.eqb d c then 1 else 0) + occurrences c s')%nat
  end.

(** The caller: one call of [addRouteToAPIDeclaration] per discovered
    route, all on the same document. *)
Fixpoint addRoutes (calls : list (Route * option ClassDef)) (doc : Document)
  : M Document :=
  match calls with
  | [] => mret doc
  | call :: rest =>
      doc' ← addRouteToAPIDeclaration call.1 call.2 doc;
      addRoutes rest doc'
  end.

Definition paths (doc : Document) : list string := api_path <$> apis doc.

(** Two routes on one path, with different verbs. *)
Definition findById : Route :=
  mkRoute "/widgets/:id" "get" "Widget.findById" None None VUndef.
Definition deleteById : Route :=
  mkRoute "/widgets/:id" "del" "Widget.deleteById" None None VUndef.

(** The filter's verdict on the object that [l] names in [σ]. *)
Definition shownAt (σ : gmap nat (gmap string value)) (l : loc) : bool :=
  from_option shown false (σ !! l).

(** Every reference of the list names an object of the store. *)
Definition allocated (σ : gmap nat (gmap string value)) (ls : list loc) : Prop :=
  Forall (λ l, is_Some (σ !! l)) ls.

(** [copies seen σ0 σ]: the store [σ] is [σ0] and, for each entry
    [l ↦ l'] of [seen], one new object [l'] with the fields of [l]. *)
Definition copies (seen : gmap nat nat) (σ0 σ : gmap nat (gmap string value))
  : Prop :=
  σ0 ⊆ σ ∧
  (∀ l l', seen !! l = Some l' →
           (l' ∉ dom σ0) ∧ (∃ o, σ0 !! l = Some o ∧ σ !! l' = Some o)) ∧
  (∀ l1 l2 l', seen !! l1 = Some l' → seen !! l2 = Some l' → l1 = l2) ∧
  (∀ l', l' ∈ dom σ → l' ∈ dom σ0 ∨ ∃ l, seen !! l = Some l').

(** The copy of a list of references. *)
Definition copied (seen : gmap nat nat) (ls ls' : list loc) : Prop :=
  Forall2 (λ l l', seen !! l = Some l') ls ls'.

(** What lines 85-95 leave in the first return descriptor. *)
Definition fixedReturn (name : string) (o : props) : props :=
  if str_eq (field o "arg") "data" then
    if str_eq (field o "type") "object" then <["type" := VStr name]> o
    else if str_eq (field o "type") "array" then
      <["items" := VObj {[ "$ref" := VStr name ]}]> (<["type" := VStr "array"]> o)
    else o
  else o.

(** The references that lines 68-71 append to the route's own. *)
Definition appendedAccepts (route : Route) (classDef : option ClassDef)
  : list loc :=
  match sharedCtorAccepts classDef with
  | Some shared =>
      if (2 <? length (js_split "." (route_method route)))%nat
      then shared else []
  | None => []
  end.

(** The name that [classDef.name] yields when there is a class. *)
Definition nameOf (classDef : option ClassDef) : string :=
  from_option class_name "" classDef.

Definition findByIdOp : Operation :=
  mkOperation "GET" "Widget_findById" (VStr "void") (VStr "") [] [] VUndef "".
Definition deleteByIdOp : Operation :=
  mkOperation "DELETE" "Widget_deleteById" (VStr "void") (VStr "") [] []
              VUndef "".

(** The object [l'] of [σ'] has the fields of the object [l] of [σ]. *)
Definition sameFields (σ σ' : gmap nat (gmap string value)) (l l' : loc) : Prop :=
  ∃ o, σ !! l = Some o ∧ σ' !! l' = Some o.

(** An instance method of Widget: one argument comes from the request
    body, one from the caller, one is computed by a function; the class
    has a shared constructor; the route returns the model. *)
Definition bodyParam : props :=
  {[ "arg" := VStr "data"; "type" := VStr "object";
     "http" := VObj {[ "source" := VStr "body" ]} ]}.
Definition nameParam : props :=
  {[ "arg" := VStr "name"; "type" := VStr "string";
     "doc" := VStr "new name" ]}.
Definition ctxParam : props :=
  {[ "arg" := VStr "ctx"; "http" := VFun "function (ctx) { return ctx; }" ]}.
Definition dataReturn : props :=
  {[ "arg" := VStr "data"; "type" := VStr "object"; "root" := VBool true ]}.
Definition renameRoute : Route :=
  mkRoute "/widgets/:id/rename" "post" "Widget.prototype.rename"
          (Some [1%nat; 2%nat; 3%nat]) (Some [4%nat]) (VStr "Rename a widget").
Definition renameStore : gmap nat (gmap string value) :=
  {[ 0%nat := ctorParam; 1%nat := bodyParam; 2%nat := nameParam;
     3%nat := ctxParam; 4%nat := dataReturn ]}.

(** A return descriptor that names a model of its own. *)
Definition summaryReturn : props :=
  {[ "arg" := VStr "data"; "type" := VStr "object";
     "model" := VStr "WidgetSummary" ]}.
Definition summaryRoute : Route :=
  mkRoute "/widgets/summary" "get" "Widget.summary"
          None (Some [4%nat]) VUndef.
Definition summaryStore : gmap nat (gmap string value) := {[ 4%nat := summaryReturn ]}.

(** A class whose name is one of the LDL primitive types. *)
Definition numberClass : ClassDef := mkClassDef "number" None.
Definition numberRoute : Route :=
  mkRoute "/numbers/:id" "get" "number.findById"
          None (Some [4%nat]) VUndef.
Definition numberStore : gmap nat (gmap string value) := {[ 4%nat := dataReturn ]}.

(** An argument that names the model 'array' and declares no type. *)
Definition arrayModelParam : props :=
  {[ "arg" := VStr "tags"; "model" := VStr "array" ]}.
Definition arrayModelStore : gmap nat (gmap string value) :=
  {[ 1%nat := arrayModelParam ]}.
Definition plainClass : ClassDef := mkClassDef "Widget" None.

(** [l1], in the store after the deep copy, stands for the argument [l]
    of the call: it has the fields of [l], and it is the copy of the
    route's first return descriptor only if [l] is that descriptor. *)
Definition standsFor (σ σ1 : gmap nat (gmap string value))
  (rets rets1 : list loc) (l l1 : loc) : Prop :=
  sameFields σ σ1 l l1 ∧ (head rets1 = Some l1 → head rets = Some l).

(** The parameter [param] is the conversion of the argument [l] of a call
    on the store [σ]: the argument passes the filter, and the converter
    is applied to its translated fields. An argument that is also the
    route's first return descriptor is converted after the fixup of that
    descriptor. *)
Definition convertedFrom (σ : gmap nat (gmap string value))
  (route : Route) (classDef : option ClassDef) (l : loc)
  (param : SwaggerParameter) : Prop :=
  ∃ o o', σ !! l = Some o ∧ shown o = true ∧
          toParameter route (translated o') = Ok param ∧
          (o' = o ∨ o' = fixedReturn (nameOf classDef) o) ∧
          (head (default [] (route_returns route)) ≠ Some l → o' = o).

(** The converter cannot throw on this argument: the argument declares a
    [type], or nothing makes its Swagger type 'array'. *)
Definition convertible (route : Route) (o : props) : Prop :=
  (field o "type" ≠ VUndef ∧ field o "type" ≠ VNull) ∨
  (field o "model" ≠ VStr "array" ∧ methodOwner route ≠ "array").

(** The kept argument [l1] of the processed route, in the store [σ'] that
    the hacks leave, comes from the argument [l] of the call on [σ]. *)
Definition keptAs (σ σ' : gmap nat (gmap string value))
  (route : Route) (classDef : option ClassDef) (l l1 : loc) : Prop :=
  ∃ o o', σ !! l = Some o ∧ shown o = true ∧
          σ' !! l1 = Some (translated o') ∧
          (o' = o ∨ o' = fixedReturn (nameOf classDef) o) ∧
          (head (default [] (route_returns route)) ≠ Some l → o' = o).


(** ** Vocabulary of the further properties *)

(** The callback that [convertPathFragments] maps over the fragments of
    the path. *)
Definition convertFragment (fragment : string) : string :=
  match fragment with
  | String ":" rest => "{" +:+ rest +:+ "}"
  | _ => fragment
  end.




(** The number of operations of a document, over all its entries. *)
Definition operationCount (doc : Document) : nat :=
  foldr (λ api n, length (operations api) + n)%nat 0%nat (apis doc).

(** A route that returns a number. *)
Definition countReturn : props :=
  {[ "arg" := VStr "count"; "type" := VStr "number" ]}.
Definition countRoute : Route :=
  mkRoute "/widgets/count" "get" "Widget.count" None (Some [4%nat]) VUndef.
Definition countStore : gmap nat (gmap string value) :=
  {[ 4%nat := countReturn ]}.

(** A document in which two entries have the same path. *)
Definition duplicateDoc : Document :=
  mkDocument [ mkAPI "/widgets" [];
               mkAPI "/widgets/{id}" [findByIdOp];
               mkAPI "/widgets/{id}" [] ].


(** What the sample call for the rename route returns, and what its
    first step returns: the document or the processed route, and the
    store. *)
Definition renamed : Document * gmap nat (gmap string value) :=
  match addRouteToAPIDeclaration renameRoute (Some widgetClass)
          (mkDocument []) renameStore with
  | Ok r => r
  | Throw _ => (mkDocument [], ∅)
  end.
Definition processed : Route * gmap nat (gmap string value) :=
  match doRouteParameterHacks renameRoute (Some widgetClass) renameStore with
  | Ok r => r
  | Throw _ => (renameRoute, ∅)
  end.


(** * Properties *)

(** ** The conversions on sample inputs *)

Example convertPathFragments_widgets :
  convertPathFragments "/widgets/:id" = "/widgets/{id}" ∧
  convertPathFragments "/a/:b/c/:d" = "/a/{b}/c/{d}".
Proof. by split. Qed.

Example convertVerb_samples :
  convertVerb "all" = "POST" ∧ convertVerb "del" = "DELETE" ∧
  convertVerb "get" = "GET" ∧ convertVerb "PUT" = "PUT".
Proof. by repeat split. Qed.

Example nickname_sample :
  replace_dots "Widget.prototype.find" = "Widget_prototype_find".
Proof. done. Qed.

Example prepareDataType_samples :
  prepareDataType (VStr "buffer") = VStr "byte" ∧
  prepareDataType (VStr "date") = VStr "Date" ∧
  prepareDataType (VStr "number") = VStr "double" ∧
  prepareDataType VUndef = VStr "void" ∧
  prepareDataType (VArr [VStr "string"]) = VStr "array" ∧
  prepareDataType (VStr "Widget") = VStr "Widget".
Proof. by repeat split. Qed.

Example ToString_samples :
  ToString (VNum 50) = "50" ∧ ToString (VNum (-3)) = "-3" ∧
  ToString (VBool true) = "true" ∧
  ToString (VArr [VNum 1; VNull; VStr "a"]) = "1,,a" ∧
  ToString (VObj ∅) = "[object Object]".
Proof. by repeat split. Qed.

(** ** The monad *)

Section monad.
Context {A B : Type}.
Implicit Types (m : M A) (f : A -> M B) (σ : gmap nat (gmap string value)).

Lemma bind_unfold m f σ :
  (m ≫= f) σ = match m σ with Ok (a, σ') => f a σ' | Throw e => Throw e end.
Proof. reflexivity. Qed.

Lemma bind_Ok m f σ a σ1 : m σ = Ok (a, σ1) → (m ≫= f) σ = f a σ1.
Proof. intros H. by rewrite bind_unfold, H. Qed.

Lemma bind_Ok_inv m f σ r :
  (m ≫= f) σ = Ok r → ∃ a σ1, m σ = Ok (a, σ1) ∧ f a σ1 = Ok r.
Proof.
  rewrite bind_unfold. destruct (m σ) as [[a σ1]|e]; [|done]. eauto.
Qed.
End monad.

Lemma read_Ok (σ : gmap nat (gmap string value)) l o :
  σ !! l = Some o → read l σ = Ok (o, σ).
Proof. intros H. unfold read. by rewrite H. Qed.

Lemma read_Ok_inv (σ σ' : gmap nat (gmap string value)) l o :
  read l σ = Ok (o, σ') → σ !! l = Some o ∧ σ' = σ.
Proof. unfold read. destruct (σ !! l); naive_solver. Qed.

Lemma write_Ok (σ : gmap nat (gmap string value)) l o o' :
  σ !! l = Some o → write l o' σ = Ok (tt, <[l := o']> σ).
Proof. intros H. unfold write. by rewrite H. Qed.

Lemma write_Ok_inv (σ σ' : gmap nat (gmap string value)) l o' u :
  write l o' σ = Ok (u, σ') → is_Some (σ !! l) ∧ σ' = <[l := o']> σ.
Proof. unfold write. destruct (σ !! l); naive_solver. Qed.

(** ** translate-keys.js *)

Lemma translateKey_lookup o e k :
  translateKey o e !! k =
    if decide (k = e.1) then None
    else if decide (k = e.2) then
      if truthy (field o e.1) then Some (stringified e.1 (field o e.1))
      else o !! k
    else o !! k.
Proof.
  unfold translateKey, stringified.
  destruct (decide (k = e.1)) as [->|Hk1].
  { by rewrite lookup_delete_eq. }
  rewrite lookup_delete_ne by done.
  destruct (truthy (field o e.1)), (decide (k = e.2)) as [->|Hk2]; try done.
  - by rewrite lookup_insert_eq.
  - by rewrite lookup_insert_ne.
Qed.

Lemma translateKey_field o e k :
  field (translateKey o e) k =
    if decide (k = e.1) then VUndef
    else if decide (k = e.2) then
      if truthy (field o e.1) then stringified e.1 (field o e.1)
      else field o k
    else field o k.
Proof.
  unfold field at 1. rewrite translateKey_lookup.
  repeat case_decide; try done. by destruct (truthy _).
Qed.

(** The four steps, one after the other, act on each key on their own. *)
Lemma translated_lookup o k :
  translated o !! k =
    if decide (k ∈ LDLKeys) then None
    else match list_find (λ e, e.2 = k) KEY_TRANSLATIONS with
         | Some (_, e) =>
             if truthy (field o e.1) then Some (stringified e.1 (field o e.1))
             else o !! k
         | None => o !! k
         end.
Proof.
  unfold translated, KEY_TRANSLATIONS, LDLKeys. simpl.
  rewrite !translateKey_lookup. simpl.
  rewrite !translateKey_field. simpl.
  repeat case_decide; simplify_eq; try done;
    repeat match goal with
           | H : _ ∈ _ |- _ => apply elem_of_cons in H as [H|H]; try done
           | H : _ ∈ [] |- _ => by apply elem_of_nil in H
           | H : ¬ _ ∈ _ |- _ => exfalso; apply H; set_solver
           end.
Qed.

Lemma translated_source o k : k ∈ LDLKeys → translated o !! k = None.
Proof. intros H. rewrite translated_lookup. by case_decide. Qed.

Lemma translated_other o k :
  k ∉ LDLKeys → k ∉ swaggerKeys → translated o !! k = o !! k.
Proof.
  intros H1 H2. rewrite translated_lookup. case_decide; [done|].
  destruct (list_find _ _) as [[i e]|] eqn:Hfind; [|done].
  apply list_find_Some in Hfind as (Hi & <- & _).
  exfalso. apply H2. unfold swaggerKeys.
  apply list_elem_of_fmap. exists e. split; [done|].
  by eapply list_elem_of_lookup_2.
Qed.

Lemma translated_id o :
  (∀ k, k ∈ LDLKeys → o !! k = None) → translated o = o.
Proof.
  intros Habsent. apply map_eq. intros k. rewrite translated_lookup.
  case_decide; [by rewrite Habsent|].
  destruct (list_find _ _) as [[i e]|] eqn:Hfind; [|done].
  apply list_find_Some in Hfind as (Hi & _ & _).
  assert (field o e.1 = VUndef) as ->; [|done].
  unfold field. rewrite Habsent; [done|].
  unfold LDLKeys. apply list_elem_of_fmap. exists e. split; [done|].
  by eapply list_elem_of_lookup_2.
Qed.

Lemma translated_idemp o : translated (translated o) = translated o.
Proof. apply translated_id. intros k. apply translated_source. Qed.

Lemma forEach_cons {A} (f : A -> M unit) x l :
  forEach f (x :: l) = (f x ≫= λ _, forEach f l).
Proof. reflexivity. Qed.

Lemma forEach_translateKey (σ : gmap nat (gmap string value)) l o es :
  σ !! l = Some o →
  forEach (translateKey_at l) es σ = Ok (tt, <[l := foldl translateKey o es]> σ).
Proof.
  revert σ o. induction es as [|e es IH]; intros σ o Hl.
  - simpl. by rewrite insert_id.
  - rewrite forEach_cons.
    rewrite (bind_Ok _ _ _ tt (<[l := translateKey o e]> σ)).
    + rewrite (IH _ (translateKey o e)) by apply lookup_insert_eq.
      by rewrite insert_insert_eq.
    + unfold translateKey_at.
      rewrite (bind_Ok _ _ _ o σ) by by apply read_Ok.
      by eapply write_Ok.
Qed.

(** [translateKeys] replaces the fields of the object by [translated]
    ones, in the same object, and returns that object. *)
Lemma translateKeys_Ok (σ : gmap nat (gmap string value)) l o :
  σ !! l = Some o →
  translateKeys l σ = Ok (l, <[l := translated o]> σ).
Proof.
  intros Hl. unfold translateKeys.
  by rewrite (bind_Ok _ _ _ _ _ (forEach_translateKey σ l o _ Hl)).
Qed.

Lemma translateKeys_Ok_inv (σ σ' : gmap nat (gmap string value)) l l' :
  translateKeys l σ = Ok (l', σ') →
  ∃ o, σ !! l = Some o ∧ l' = l ∧ σ' = <[l := translated o]> σ.
Proof.
  destruct (σ !! l) as [o|] eqn:Hl.
  - rewrite (translateKeys_Ok _ _ _ Hl). intros [= <- <-]. eauto.
  - unfold translateKeys, KEY_TRANSLATIONS.
    rewrite bind_unfold, forEach_cons, bind_unfold.
    unfold translateKey_at at 1. rewrite bind_unfold. unfold read at 1.
    by rewrite Hl.
Qed.





(** ** Strings *)

Lemma starts_with_spec p s :
  starts_with p s = true ↔ ∃ post, s = p +:+ post.
Proof.
  revert s. induction p as [|a p IH]; intros s; simpl.
  - split; [eauto|done].
  - destruct s as [|b s]; simpl.
    + split; [done|]. by intros [post ?].
    + rewrite andb_true_iff, IH, Ascii.eqb_eq. split.
      * intros [-> [post ->]]. by exists post.
      * intros [post [= -> ->]]. eauto.
Qed.

(** [includes] is the plain substring test: no notion of path segment. *)
Lemma includes_spec sub s :
  includes sub s = true ↔ ∃ pre post, s = pre +:+ sub +:+ post.
Proof.
  induction s as [|c s IH]; simpl.
  - rewrite orb_false_r, starts_with_spec. split.
    + intros [post ->]. by exists "", post.
    + intros [[|? pre] [post H]]; [by exists post|done].
  - rewrite orb_true_iff, starts_with_spec, IH. split.
    + intros [[post ->]|(pre & post & ->)].
      * by exists "", post.
      * by exists (String c pre), post.
    + intros [[|? pre] [post H]].
      * left. by exists post.
      * right. injection H as -> ->. by exists pre, post.
Qed.

Lemma lower_char_eqb a c :
  c ∈ ["g"; "e"; "t"]%char →
  Ascii.eqb (lower_char a) c = Ascii.eqb a c || Ascii.eqb a (upper_char c).
Proof.
  rewrite !elem_of_cons, elem_of_nil. intros [->|[->|[->|[]]]];
    by destruct a as [[] [] [] [] [] [] [] []].
Qed.

Lemma lower_char_spec a c :
  c ∈ ["g"; "e"; "t"]%char →
  lower_char a = c ↔ a = c ∨ a = upper_char c.
Proof.
  intros Hc. rewrite <- !Ascii.eqb_eq, <- orb_true_iff.
  by rewrite lower_char_eqb.
Qed.

(** The verbs that lowercase to 'get'. *)
Lemma toLowerCase_get verb :
  toLowerCase verb = "get" ↔
  verb ∈ ["get"; "geT"; "gEt"; "gET"; "Get"; "GeT"; "GEt"; "GET"].
Proof.
  split.
  - destruct verb as [|a [|b [|c [|d rest]]]]; try done.
    unfold toLowerCase. simpl. intros [= Ha Hb Hc].
    apply lower_char_spec in Ha, Hb, Hc; try (rewrite !elem_of_cons; tauto).
    rewrite !elem_of_cons.
    destruct Ha as [-> | ->], Hb as [-> | ->], Hc as [-> | ->]; vm_compute; tauto.
  - rewrite !elem_of_cons, elem_of_nil. intros H.
    repeat (destruct H as [->|H]; [done|]). done.
Qed.

(** ** The parameter mapper *)

Lemma acceptToParameter_Ok (σ : gmap nat (gmap string value)) route l o :
  σ !! l = Some o →
  acceptToParameter route l σ =
    match toParameter route o with Ok p => Ok (p, σ) | Throw e => Throw e end.
Proof.
  intros Hl. unfold acceptToParameter.
  by rewrite (bind_Ok _ _ _ _ _ (read_Ok _ _ _ Hl)).
Qed.

Lemma acceptToParameter_Ok_inv (σ σ' : gmap nat (gmap string value)) route l p :
  acceptToParameter route l σ = Ok (p, σ') →
  σ' = σ ∧ ∃ o, σ !! l = Some o ∧ toParameter route o = Ok p.
Proof.
  unfold acceptToParameter. intros (o & σ1 & Hread & Hp)%bind_Ok_inv.
  apply read_Ok_inv in Hread as [Hl ->].
  unfold lift in Hp. destruct (toParameter route o) eqn:E; [|done].
  injection Hp as -> ->. eauto.
Qed.

Lemma source_guard http :
  truthy http && truthy (prop http "source") = truthy (prop http "source").
Proof. destruct http; simpl; by rewrite ?andb_false_r. Qed.

Lemma toParameter_paramType route accepts p :
  toParameter route accepts = Ok p →
  paramType p =
    let name := js_or (field accepts "name") (field accepts "arg") in
    let source := prop (field accepts "http") "source" in
    if truthy source then source
    else if includes (":" +:+ ToString name) (route_path route)
    then VStr "path"
    else VStr (defaultParamType route).
Proof.
  unfold toParameter. rewrite source_guard. cbv zeta.
  set (pt := if truthy (prop _ _) then _ else _).
  assert (js_or pt (VStr (defaultParamType route)) = pt) as Hor.
  { unfold js_or, pt. destruct (truthy (prop _ _)) eqn:Hs; [by rewrite Hs|].
    destruct (includes _ _); [done|].
    unfold defaultParamType. by destruct (String.eqb _ _). }
  rewrite Hor.
  destruct (str_eq _ "array"); [destruct (index0 _)|]; by intros [= <-].
Qed.

(** C6, as the code has it. The [paramType] of a converted parameter is
    resolved in this order: the parameter's [http.source], verbatim, when
    that value is truthy; otherwise 'path' when the route's path contains
    ':' followed by the parameter's name anywhere, as a plain substring;
    otherwise 'query' when the verb lowercases to 'get' and 'form' when it
    does not. The name is [name], or [arg] when [name] is falsy. *)
Theorem paramType_resolution
  (σ σ' : gmap nat (gmap string value)) route l accepts p :
  σ !! l = Some accepts →
  acceptToParameter route l σ = Ok (p, σ') →
  let name := js_or (field accepts "name") (field accepts "arg") in
  let source := prop (field accepts "http") "source" in
  let named :=
    ∃ pre post, route_path route = pre +:+ ":" +:+ ToString name +:+ post in
  (truthy source = true → paramType p = source) ∧
  (truthy source = false → named → paramType p = VStr "path") ∧
  (truthy source = false → ¬ named →
   toLowerCase (route_verb route) = "get" → paramType p = VStr "query") ∧
  (truthy source = false → ¬ named →
   toLowerCase (route_verb route) ≠ "get" → paramType p = VStr "form") ∧
  (toLowerCase (route_verb route) = "get" ↔
   route_verb route ∈
     ["get"; "geT"; "gEt"; "gET"; "Get"; "GeT"; "GEt"; "GET"]).
Proof.
  intros Hl (_ & o & Hl' & Hp)%acceptToParameter_Ok_inv name source named.
  assert (o = accepts) as -> by congruence.
  apply toParameter_paramType in Hp. cbv zeta in Hp.
  fold name source in Hp.
  assert (includes (":" +:+ ToString name) (route_path route) = true ↔ named)
    as Hnamed by apply includes_spec.
  split; [|split; [|split; [|split; [|apply toLowerCase_get]]]].
  - by intros Hs; rewrite Hs in Hp.
  - intros Hs Hn%Hnamed. by rewrite Hs, Hn in Hp.
  - intros Hs Hn Hget. rewrite Hs in Hp.
    destruct (includes _ _); [by destruct Hn; apply Hnamed|].
    unfold defaultParamType in Hp. by rewrite Hget in Hp.
  - intros Hs Hn Hget. rewrite Hs in Hp.
    destruct (includes _ _); [by destruct Hn; apply Hnamed|].
    unfold defaultParamType in Hp.
    apply String.eqb_neq in Hget. by rewrite Hget in Hp.
Qed.

Lemma paramType_resolution_witness :
  idStore !! 1%nat = Some idParam ∧
  ∃ p, acceptToParameter idleRoute 1%nat idStore = Ok (p, idStore) ∧
       paramType p = VStr "path".
Proof.
  split; [reflexivity|].
  eexists. split; [reflexivity|].
  apply (paramType_resolution idStore idStore idleRoute 1%nat idParam);
    [reflexivity|reflexivity|reflexivity|].
  by exists "/widgets/", "le".
Defined.

(** C6 as the specification words it fails: an [http.source] that is present but
    is the empty string does not override the [paramType]. *)
Lemma paramType_empty_source_counterexample :
  field emptySourceParam "http" = VObj {[ "source" := VStr "" ]} ∧
  ∃ p, acceptToParameter plainRoute 1%nat emptySourceStore
         = Ok (p, emptySourceStore) ∧
       paramType p = VStr "query" ∧
       paramType p ≠ VStr "".
Proof. split; [reflexivity|]. eexists. by split; [reflexivity|]. Qed.




(** ** The shared constructor's arguments *)





(** ** Merging into the document *)

Lemma mret_Ok {A} (a : A) (σ : gmap nat (gmap string value)) :
  (mret a : M A) σ = Ok (a, σ).
Proof. reflexivity. Qed.

Lemma routeToAPI_shape (σ σ' : gmap nat (gmap string value)) route api :
  routeToAPI route σ = Ok (api, σ') →
  ∃ op, api = mkAPI (convertPathFragments (route_path route)) [op].
Proof.
  unfold routeToAPI.
  intros (returnDesc & σ1 & _ & (params & σ2 & _ & H)%bind_Ok_inv)%bind_Ok_inv.
  rewrite mret_Ok in H. injection H as <- _. eauto.
Qed.

Lemma pushOperation_paths p op l :
  api_path <$> pushOperation p op l = api_path <$> l.
Proof.
  induction l as [|a l IH]; [done|]. cbn [pushOperation].
  case_decide; rewrite !fmap_cons; [done|]. by rewrite IH.
Qed.

Lemma pushOperation_split p op pre existing post :
  p ∉ api_path <$> pre →
  api_path existing = p →
  pushOperation p op (pre ++ existing :: post) =
    pre ++ mkAPI p (operations existing ++ [op]) :: post.
Proof.
  intros Hpre Hp. induction pre as [|a pre IH]; cbn [pushOperation app].
  - case_decide; [by rewrite Hp|done].
  - rewrite fmap_cons, not_elem_of_cons in Hpre. destruct Hpre as [Ha Hpre].
    case_decide; [done|]. by rewrite IH.
Qed.

Lemma pushOperation_last p op l :
  p ∈ api_path <$> l →
  ∃ api, api ∈ pushOperation p op l ∧ api_path api = p ∧
         last (operations api) = Some op.
Proof.
  induction l as [|a l IH]; [by intros ?%elem_of_nil|].
  rewrite fmap_cons. cbn [pushOperation]. intros Hin.
  destruct (decide (api_path a = p)) as [Ha|Ha].
  - eexists. split; [apply elem_of_cons; by left|]. simpl.
    split; [done|]. apply last_snoc.
  - apply elem_of_cons in Hin as [Hin|Hin]; [done|].
    destruct (IH Hin) as (api & Hapi & Hp & Hlast).
    exists api. split; [|done]. apply elem_of_cons. by right.
Qed.

Lemma matching_nil p (l : list API) :
  filter (λ existingAPI, api_path existingAPI = p) l = [] ↔
  p ∉ api_path <$> l.
Proof.
  induction l as [|a l IH].
  - split; [|done]. intros _. apply not_elem_of_nil.
  - rewrite filter_cons, fmap_cons, not_elem_of_cons. case_decide.
    + split; [done|]. by intros [[] _].
    + rewrite IH. split; [done|]. by intros [_ ?].
Qed.

Lemma addRouteToDoc_inv (σ σ' : gmap nat (gmap string value)) route doc doc' :
  addRouteToDoc route doc σ = Ok (doc', σ') →
  let p := convertPathFragments (route_path route) in
  ∃ op, routeToAPI route σ = Ok (mkAPI p [op], σ') ∧
        apis doc' =
          if decide (p ∈ paths doc) then pushOperation p op (apis doc)
          else apis doc ++ [mkAPI p [op]].
Proof.
  intros (api & σ1 & Hapi & H)%bind_Ok_inv p.
  destruct (routeToAPI_shape _ _ _ _ Hapi) as [op ->].
  exists op. simpl in H. fold p in H.
  destruct (filter _ _) as [|m ms] eqn:Hmatch.
  - rewrite mret_Ok in H. injection H as <- <-. split; [done|].
    apply matching_nil in Hmatch. simpl. by case_decide.
  - rewrite mret_Ok in H. injection H as <- <-. split; [done|].
    simpl. destruct (decide (p ∈ paths doc)) as [Hin|Hin]; [done|].
    apply matching_nil in Hin. by rewrite Hin in Hmatch.
Qed.

(** ** Arrays of references *)

Lemma mapM_cons {A B} (f : A -> M B) x l :
  mapM f (x :: l) = (f x ≫= λ y, mapM f l ≫= λ ys, mret (y :: ys)).
Proof. reflexivity. Qed.

Lemma filterM_cons {A} (f : A -> M bool) x l :
  filterM f (x :: l) =
    (f x ≫= λ b : bool, filterM f l ≫= λ ys, mret (if b then x :: ys else ys)).
Proof. reflexivity. Qed.

Lemma shownArg_inv (σ σ' : gmap nat (gmap string value)) l b :
  shownArg l σ = Ok (b, σ') →
  σ' = σ ∧ is_Some (σ !! l) ∧ b = shownAt σ l.
Proof.
  unfold shownArg. intros (o & σ1 & [Hl ->]%read_Ok_inv & H)%bind_Ok_inv.
  rewrite mret_Ok in H. injection H as <- <-.
  unfold shownAt. rewrite Hl. eauto.
Qed.

(** The filter reads each object once and changes none. *)
Lemma filterM_shownArg_inv (σ σ' : gmap nat (gmap string value)) ls kept :
  filterM shownArg ls σ = Ok (kept, σ') →
  σ' = σ ∧ allocated σ ls ∧ kept = filter (λ l, shownAt σ l) ls.
Proof.
  revert σ' kept. induction ls as [|l ls IH]; intros σ' kept.
  - simpl. rewrite mret_Ok. intros [= <- <-].
    split; [done|]. split; [constructor|done].
  - rewrite filterM_cons.
    intros (b & σ1 & (-> & Hl & ->)%shownArg_inv & H)%bind_Ok_inv.
    apply bind_Ok_inv in H as (ys & σ2 & (-> & Hls & ->)%IH & H).
    rewrite mret_Ok in H. injection H as <- <-.
    split; [done|]. split; [by constructor|].
    rewrite filter_cons. by destruct (shownAt σ l).
Qed.

(** Translating the objects of a list, one after the other, translates
    each object of the list once, however often the list names it. *)
Lemma mapM_translateKeys_inv (σ σ' : gmap nat (gmap string value)) ls ls' :
  mapM translateKeys ls σ = Ok (ls', σ') →
  ls' = ls ∧ allocated σ ls ∧
  ∀ l, σ' !! l = if decide (l ∈ ls) then translated <$> σ !! l else σ !! l.
Proof.
  revert σ σ' ls'. induction ls as [|l0 ls IH]; intros σ σ' ls'.
  - simpl. rewrite mret_Ok. intros [= <- <-].
    split; [done|]. split; [constructor|].
    intros l. destruct (decide (l ∈ [])) as [H|H]; [|done].
    by apply elem_of_nil in H.
  - rewrite mapM_cons.
    intros (y & σ1 & (o & Hl0 & -> & ->)%translateKeys_Ok_inv & H)%bind_Ok_inv.
    apply bind_Ok_inv in H as (ys & σ2 & (-> & Hls & Hσ2)%IH & H).
    rewrite mret_Ok in H. injection H as <- <-.
    split; [done|]. split.
    { constructor; [by rewrite Hl0|].
      eapply Forall_impl; [exact Hls|]. intros l. simpl.
      destruct (decide (l = l0)) as [->|Hne]; [by rewrite Hl0|].
      by rewrite lookup_insert_ne. }
    intros l. rewrite Hσ2.
    destruct (decide (l ∈ l0 :: ls)) as [Hin|Hin];
      destruct (decide (l ∈ ls)) as [Hin'|Hin'];
      destruct (decide (l = l0)) as [->|Hne];
      rewrite ?lookup_insert_eq, ?lookup_insert_ne, ?Hl0 by done;
      simpl; rewrite ?translated_idemp; try done.
    all: try (by apply elem_of_cons in Hin as [?|?]).
    all: try (destruct Hin; apply elem_of_cons; by right).
    all: try (destruct Hin; apply elem_of_cons; by left).
Qed.

Lemma mapM_acceptToParameter_inv
  (σ σ' : gmap nat (gmap string value)) route ls ps :
  mapM (acceptToParameter route) ls σ = Ok (ps, σ') →
  σ' = σ ∧
  Forall2 (λ l p, ∃ o, σ !! l = Some o ∧ toParameter route o = Ok p) ls ps.
Proof.
  revert σ' ps. induction ls as [|l ls IH]; intros σ' ps.
  - simpl. rewrite mret_Ok. intros [= <- <-]. by split.
  - rewrite mapM_cons.
    intros (p & σ1 & (-> & Hp)%acceptToParameter_Ok_inv & H)%bind_Ok_inv.
    apply bind_Ok_inv in H as (ys & σ2 & (-> & Hls)%IH & H).
    rewrite mret_Ok in H. injection H as <- <-.
    split; [done|]. by constructor.
Qed.

(** ** The deep copy *)

Lemma alloc_inv (σ σ' : gmap nat (gmap string value)) o l' :
  alloc o σ = Ok (l', σ') → σ !! l' = None ∧ σ' = <[l' := o]> σ.
Proof.
  unfold alloc. intros [= <- <-]. split; [|done].
  apply not_elem_of_dom, is_fresh.
Qed.

Lemma copies_refl (σ : gmap nat (gmap string value)) : copies ∅ σ σ.
Proof.
  split; [done|]. split; [|split]; try by intros *; rewrite lookup_empty.
  intros l' Hl'. by left.
Qed.

(** One more object copied. *)
Lemma copies_insert seen (σ0 σ : gmap nat (gmap string value)) l l' o :
  copies seen σ0 σ →
  seen !! l = None → σ0 !! l = Some o → σ !! l' = None →
  copies (<[l := l']> seen) σ0 (<[l' := o]> σ).
Proof.
  intros (Hsub & Hent & Hinj & Hdom) Hnew Hl Hfresh.
  assert (∀ k k', seen !! k = Some k' → k' ≠ l') as Hold.
  { intros k k' Hk ->. destruct (Hent _ _ Hk) as (_ & o' & _ & Ho').
    congruence. }
  split; [|split; [|split]].
  - etrans; [exact Hsub|]. by apply insert_subseteq.
  - intros k k' [[-> ->]|[Hne Hk]]%lookup_insert_Some.
    + split.
      * apply not_elem_of_dom. eapply lookup_weaken_None; eauto.
      * exists o. by rewrite lookup_insert_eq.
    + destruct (Hent _ _ Hk) as (Hk' & o' & Ho' & Hσ). split; [done|].
      exists o'. split; [done|].
      rewrite lookup_insert_ne; [done|]. intros ->. by eapply Hold.
  - intros l1 l2 x [[-> ->]|[Hne1 H1]]%lookup_insert_Some
                    [[-> Heq]|[Hne2 H2]]%lookup_insert_Some; try done.
    + by destruct (Hold _ _ H2).
    + subst x. by destruct (Hold _ _ H1).
    + by eapply Hinj.
  - intros k Hk. apply elem_of_dom in Hk.
    apply lookup_insert_is_Some' in Hk as [<-|Hk].
    + right. exists l. by rewrite lookup_insert_eq.
    + apply elem_of_dom in Hk. destruct (Hdom _ Hk) as [?|[l0 Hl0]]; [by left|].
      right. exists l0. rewrite lookup_insert_ne; [done|]. congruence.
Qed.

Lemma cloneList_cons l ls seen :
  cloneList (l :: ls) seen =
    match seen !! l with
    | Some l' => cloneList ls seen ≫= λ r, mret (l' :: r.1, r.2)
    | None =>
        read l ≫= λ o, alloc o ≫= λ l',
        cloneList ls (<[l := l']> seen) ≫= λ r, mret (l' :: r.1, r.2)
    end.
Proof. reflexivity. Qed.

Lemma cloneList_inv σ0 ls seen (σ σ' : gmap nat (gmap string value)) ls' seen' :
  copies seen σ0 σ → allocated σ0 ls →
  cloneList ls seen σ = Ok ((ls', seen'), σ') →
  copies seen' σ0 σ' ∧ seen ⊆ seen' ∧ copied seen' ls ls'.
Proof.
  revert seen σ σ' ls' seen'.
  induction ls as [|l ls IH]; intros seen σ σ' ls' seen' Hcopies Halloc.
  { simpl. rewrite mret_Ok. intros [= <- <- <-].
    split; [done|]. split; [done|]. constructor. }
  apply Forall_cons in Halloc as [[o0 Hl0] Halloc].
  rewrite cloneList_cons. destruct (seen !! l) as [l1|] eqn:Hseen.
  - intros ([r1 r2] & σ1 & Hrec & H)%bind_Ok_inv.
    rewrite mret_Ok in H. injection H as <- <- <-.
    destruct (IH _ _ _ _ _ Hcopies Halloc Hrec) as (Hc & Hsub & Hls).
    split; [done|]. split; [done|].
    constructor; [|done]. by eapply lookup_weaken.
  - intros (o & σ1 & [Hl ->]%read_Ok_inv & H)%bind_Ok_inv.
    apply bind_Ok_inv in H as (l' & σ2 & [Hfresh ->]%alloc_inv & H).
    apply bind_Ok_inv in H as ([r1 r2] & σ3 & Hrec & H).
    rewrite mret_Ok in H. injection H as <- <- <-.
    assert (o = o0) as ->.
    { destruct Hcopies as [Hsub _].
      eapply lookup_weaken in Hl0; [|exact Hsub]. congruence. }
    pose proof (copies_insert _ _ _ _ _ _ Hcopies Hseen Hl0 Hfresh) as Hc2.
    destruct (IH _ _ _ _ _ Hc2 Halloc Hrec) as (Hc & Hsub & Hls).
    split; [done|]. split.
    { etrans; [|exact Hsub]. by apply insert_subseteq. }
    constructor; [|done].
    eapply lookup_weaken; [|exact Hsub]. by rewrite lookup_insert_eq.
Qed.

Lemma copied_weaken seen seen' ls ls' :
  seen ⊆ seen' → copied seen ls ls' → copied seen' ls ls'.
Proof.
  intros Hsub Hls. eapply Forall2_impl; [exact Hls|].
  intros l l' H. simpl in *. by eapply lookup_weaken.
Qed.

Lemma cloneArray_inv σ0 a seen (σ σ' : gmap nat (gmap string value)) a' seen' :
  copies seen σ0 σ → allocated σ0 (default [] a) →
  cloneArray a seen σ = Ok ((a', seen'), σ') →
  copies seen' σ0 σ' ∧ seen ⊆ seen' ∧
  ∃ ls', copied seen' (default [] a) ls' ∧ a' = (λ _, ls') <$> a.
Proof.
  intros Hcopies Halloc. destruct a as [ls|]; simpl.
  - intros ([r1 r2] & σ1 & Hrec & H)%bind_Ok_inv.
    rewrite mret_Ok in H. injection H as <- <- <-.
    destruct (cloneList_inv _ _ _ _ _ _ _ Hcopies Halloc Hrec) as (? & ? & ?).
    eauto 6.
  - rewrite mret_Ok. intros [= <- <- <-].
    split; [done|]. split; [done|]. exists []. split; [constructor|done].
Qed.

(** The deep copy leaves the store it got untouched and puts a copy of
    every descriptor of the route into a new object. *)
Lemma cloneDeep_inv (σ σ1 : gmap nat (gmap string value)) route route1 :
  allocated σ (default [] (route_accepts route)) →
  allocated σ (default [] (route_returns route)) →
  cloneDeep route σ = Ok (route1, σ1) →
  ∃ seen own1 rets1,
    copies seen σ σ1 ∧
    copied seen (default [] (route_accepts route)) own1 ∧
    copied seen (default [] (route_returns route)) rets1 ∧
    route1 = mkRoute (route_path route) (route_verb route)
               (route_method route)
               ((λ _, own1) <$> route_accepts route)
               ((λ _, rets1) <$> route_returns route)
               (route_description route).
Proof.
  intros Hown Hrets. unfold cloneDeep.
  intros ([a seen_a] & σa & Ha & H)%bind_Ok_inv.
  apply bind_Ok_inv in H as ([r seen_r] & σr & Hr & H).
  rewrite mret_Ok in H. injection H as <- <-.
  destruct (cloneArray_inv _ _ _ _ _ _ _ (copies_refl σ) Hown Ha)
    as (Hca & _ & own1 & Hown1 & ->).
  destruct (cloneArray_inv _ _ _ _ _ _ _ Hca Hrets Hr)
    as (Hcr & Hsub & rets1 & Hrets1 & ->).
  exists seen_r, own1, rets1. split; [done|].
  split; [by eapply copied_weaken|]. done.
Qed.

(** ** doRouteParameterHacks, step by step *)

Lemma addSharedCtorAccepts_accepts route classDef :
  default [] (route_accepts (addSharedCtorAccepts route classDef)) =
    default [] (route_accepts route) ++ appendedAccepts route classDef.
Proof.
  unfold addSharedCtorAccepts, appendedAccepts.
  destruct (sharedCtorAccepts classDef) as [shared|];
    [destruct (2 <? _)%nat|]; simpl; by rewrite ?app_nil_r.
Qed.

Lemma addSharedCtorAccepts_rest route classDef :
  let route' := addSharedCtorAccepts route classDef in
  route_path route' = route_path route ∧
  route_verb route' = route_verb route ∧
  route_method route' = route_method route ∧
  route_returns route' = route_returns route ∧
  route_description route' = route_description route.
Proof.
  unfold addSharedCtorAccepts.
  destruct (sharedCtorAccepts classDef) as [shared|];
    [destruct (2 <? _)%nat|]; done.
Qed.

Lemma className_inv (σ σ' : gmap nat (gmap string value)) classDef name :
  className classDef σ = Ok (name, σ') → σ' = σ ∧ name = nameOf classDef.
Proof. destruct classDef; [|done]. simpl. rewrite mret_Ok. by intros [= <- <-]. Qed.

(** The fixup writes to the first return descriptor and to no other
    object. *)
Lemma fixReturns_inv (σ σ' : gmap nat (gmap string value)) route classDef u :
  fixReturns route classDef σ = Ok (u, σ') →
  match route_returns route ≫= head with
  | None => σ' = σ
  | Some r =>
      ∃ o, σ !! r = Some o ∧
           σ' = <[r := fixedReturn (nameOf classDef) o]> σ
  end.
Proof.
  unfold fixReturns. destruct (route_returns route ≫= head) as [r|].
  2: { rewrite mret_Ok. by intros [= <-]. }
  intros (o & σ1 & [Hr ->]%read_Ok_inv & H)%bind_Ok_inv.
  exists o. split; [done|]. unfold fixedReturn.
  destruct (str_eq (field o "arg") "data").
  2: { rewrite mret_Ok in H. injection H as <-. by rewrite insert_id. }
  destruct (str_eq (field o "type") "object").
  { apply bind_Ok_inv in H as (name & σ2 & [-> ->]%className_inv & H).
    by apply write_Ok_inv in H as [_ ->]. }
  destruct (str_eq (field o "type") "array").
  { apply bind_Ok_inv in H as (name & σ2 & [-> ->]%className_inv & H).
    by apply write_Ok_inv in H as [_ ->]. }
  rewrite mret_Ok in H. injection H as <-. by rewrite insert_id.
Qed.

(** What [doRouteParameterHacks] returns and what it leaves in the
    store: [σ1] is the store after the deep copy, [σ2] the store after the
    fixup of the first return descriptor; the translation then acts on
    the kept arguments and on the return descriptors. *)
Lemma doRouteParameterHacks_inv
  (σ σ' : gmap nat (gmap string value)) route classDef route' :
  allocated σ (default [] (route_accepts route)) →
  allocated σ (default [] (route_returns route)) →
  doRouteParameterHacks route classDef σ = Ok (route', σ') →
  ∃ seen own1 rets1 σ1 σ2,
    copies seen σ σ1 ∧
    copied seen (default [] (route_accepts route)) own1 ∧
    copied seen (default [] (route_returns route)) rets1 ∧
    allocated σ1 (own1 ++ appendedAccepts route classDef) ∧
    match head rets1 with
    | None => σ2 = σ1
    | Some r => ∃ o, σ1 !! r = Some o ∧
                     σ2 = <[r := fixedReturn (nameOf classDef) o]> σ1
    end ∧
    let kept := filter (λ l, shownAt σ1 l)
                       (own1 ++ appendedAccepts route classDef) in
    route' = mkRoute (route_path route) (route_verb route)
               (route_method route) (Some kept) (Some rets1)
               (route_description route) ∧
    ∀ l, σ' !! l =
         if decide (l ∈ kept ∨ l ∈ rets1) then translated <$> σ2 !! l
         else σ2 !! l.
Proof.
  intros Hown Hrets. unfold doRouteParameterHacks.
  intros (route1 & σ1 & Hclone & H)%bind_Ok_inv.
  destruct (cloneDeep_inv _ _ _ _ Hown Hrets Hclone)
    as (seen & own1 & rets1 & Hcopies & Hown1 & Hrets1 & ->).
  cbv zeta in H. rewrite addSharedCtorAccepts_accepts in H.
  apply bind_Ok_inv in H as (kept & σ1' & (-> & Halloc & ->)%filterM_shownArg_inv & H).
  apply bind_Ok_inv in H as (u & σ2 & Hfix%fixReturns_inv & H).
  apply bind_Ok_inv in H as (acc & σ3 & (-> & _ & Hσ3)%mapM_translateKeys_inv & H).
  apply bind_Ok_inv in H as (rets & σ4 & (-> & _ & Hσ4)%mapM_translateKeys_inv & H).
  rewrite mret_Ok in H. injection H as <- <-.
  pose proof (addSharedCtorAccepts_rest
    (mkRoute (route_path route) (route_verb route) (route_method route)
       ((λ _, own1) <$> route_accepts route)
       ((λ _, rets1) <$> route_returns route) (route_description route))
    classDef) as (Hp & Hv & Hm & Hr & Hd).
  simpl in *.
  assert (default [] ((λ _, own1) <$> route_accepts route) = own1) as Eown.
  { destruct (route_accepts route); [done|]. by inversion Hown1. }
  assert (default [] ((λ _, rets1) <$> route_returns route) = rets1) as Erets.
  { destruct (route_returns route); [done|]. by inversion Hrets1. }
  assert (appendedAccepts
            (mkRoute (route_path route) (route_verb route) (route_method route)
               ((λ _, own1) <$> route_accepts route)
               ((λ _, rets1) <$> route_returns route) (route_description route))
            classDef = appendedAccepts route classDef) as Eapp by done.
  rewrite Eapp, Eown in *.
  assert (((λ _, rets1) <$> route_returns route) ≫= head = head rets1) as Ehead.
  { destruct (route_returns route); [done|]. by inversion Hrets1. }
  unfold with_accepts, with_returns in *. simpl in *.
  rewrite Hr, ?Erets, ?Ehead in *.
  exists seen, own1, rets1, σ1, σ2.
  split; [done|]. split; [done|]. split; [done|]. split; [done|].
  split; [done|]. split.
  { by rewrite Hp, Hv, Hm, Hd. }
  intros l. rewrite Hσ4, Hσ3.
  repeat case_decide; try done; try tauto.
  by destruct (σ2 !! l); simpl; rewrite ?translated_idemp.
Qed.

(** The hacks touch the arguments and the return descriptors only. *)
Lemma doRouteParameterHacks_fields
  (σ σ' : gmap nat (gmap string value)) route classDef route' :
  doRouteParameterHacks route classDef σ = Ok (route', σ') →
  route_path route' = route_path route ∧
  route_verb route' = route_verb route ∧
  route_method route' = route_method route ∧
  route_description route' = route_description route.
Proof.
  unfold doRouteParameterHacks.
  intros (route1 & σ1 & Hclone & H)%bind_Ok_inv.
  unfold cloneDeep in Hclone.
  apply bind_Ok_inv in Hclone as (a & σa & _ & Hclone).
  apply bind_Ok_inv in Hclone as (r & σr & _ & Hclone).
  rewrite mret_Ok in Hclone. injection Hclone as <- <-.
  cbv zeta in H.
  apply bind_Ok_inv in H as (kept & σ2 & _ & H).
  apply bind_Ok_inv in H as (u & σ3 & _ & H).
  apply bind_Ok_inv in H as (acc & σ4 & _ & H).
  apply bind_Ok_inv in H as (rets & σ5 & _ & H).
  rewrite mret_Ok in H. injection H as <- <-.
  pose proof (addSharedCtorAccepts_rest
                (with_returns (with_accepts route a.1) r.1) classDef)
    as (Hp & Hv & Hm & _ & Hd).
  simpl in *. by rewrite Hp, Hv, Hm, Hd.
Qed.

(** ** routeToAPI *)

Lemma routeToAPI_inv (σ σ' : gmap nat (gmap string value)) route api :
  routeToAPI route σ = Ok (api, σ') →
  σ' = σ ∧
  ∃ returnDesc params,
    match route_returns route ≫= head with
    | Some r => ∃ o, σ !! r = Some o ∧ returnDesc = Some o
    | None => returnDesc = None
    end ∧
    Forall2 (λ l p, ∃ o, σ !! l = Some o ∧ toParameter route o = Ok p)
            (default [] (route_accepts route)) params ∧
    api = mkAPI (convertPathFragments (route_path route))
            [ mkOperation
                (convertVerb (route_verb route))
                (replace_dots (route_method route))
                (match returnDesc with
                 | Some o => js_or (field o "model")
                                   (prepareDataType (field o "type"))
                 | None => VStr "void"
                 end)
                (match returnDesc with
                 | Some o => field o "items"
                 | None => VStr ""
                 end)
                params [] (route_description route) "" ].
Proof.
  unfold routeToAPI.
  intros (returnDesc & σ1 & Hret & H)%bind_Ok_inv.
  apply bind_Ok_inv in H as (params & σ2 & Hparams & H).
  rewrite mret_Ok in H. injection H as <- <-.
  assert (σ1 = σ ∧
          match route_returns route ≫= head with
          | Some r => ∃ o, σ !! r = Some o ∧ returnDesc = Some o
          | None => returnDesc = None
          end) as [-> Hdesc].
  { destruct (route_returns route ≫= head) as [r|].
    - apply bind_Ok_inv in Hret as (o & σ0 & [Hr ->]%read_Ok_inv & Hret).
      rewrite mret_Ok in Hret. injection Hret as <- <-. eauto.
    - rewrite mret_Ok in Hret. by injection Hret as <- <-. }
  assert (σ2 = σ ∧
          Forall2 (λ l p, ∃ o, σ !! l = Some o ∧ toParameter route o = Ok p)
                  (default [] (route_accepts route)) params) as [-> Hps].
  { destruct (route_accepts route) as [a|].
    - by apply mapM_acceptToParameter_inv in Hparams.
    - rewrite mret_Ok in Hparams. injection Hparams as <- <-.
      split; [done|]. constructor. }
  split; [done|]. by exists returnDesc, params.
Qed.

(** ** The exported function *)

Lemma addRouteToAPIDeclaration_inv
  (σ σ' : gmap nat (gmap string value)) route classDef doc doc' :
  addRouteToAPIDeclaration route classDef doc σ = Ok (doc', σ') →
  let p := convertPathFragments (route_path route) in
  ∃ processedRoute op,
    doRouteParameterHacks route classDef σ = Ok (processedRoute, σ') ∧
    routeToAPI processedRoute σ' = Ok (mkAPI p [op], σ') ∧
    apis doc' =
      if decide (p ∈ paths doc) then pushOperation p op (apis doc)
      else apis doc ++ [mkAPI p [op]].
Proof.
  intros (processedRoute & σ1 & Hhacks & Hadd)%bind_Ok_inv p.
  apply addRouteToDoc_inv in Hadd as (op & Hapi & Hdoc).
  pose proof (doRouteParameterHacks_fields _ _ _ _ _ Hhacks) as (Hp & _).
  rewrite Hp in Hapi, Hdoc. fold p in Hapi, Hdoc.
  destruct (routeToAPI_inv _ _ _ _ Hapi) as [-> _].
  by exists processedRoute, op.
Qed.

Lemma merged_NoDup p op (l l' : list API) :
  NoDup (api_path <$> l) →
  l' = (if decide (p ∈ api_path <$> l) then pushOperation p op l
        else l ++ [mkAPI p [op]]) →
  NoDup (api_path <$> l').
Proof.
  intros Hnd ->. case_decide as Hin.
  - by rewrite pushOperation_paths.
  - rewrite fmap_app. apply NoDup_app. split; [done|]. split.
    + intros x Hx [->|[]%elem_of_nil]%elem_of_cons. done.
    + apply NoDup_singleton.
Qed.

Lemma addRoutes_cons call rest doc :
  addRoutes (call :: rest) doc =
    (addRouteToAPIDeclaration call.1 call.2 doc ≫= λ doc', addRoutes rest doc').
Proof. reflexivity. Qed.

Lemma addRoutes_NoDup (σ σ' : gmap nat (gmap string value)) calls doc doc' :
  NoDup (paths doc) →
  addRoutes calls doc σ = Ok (doc', σ') →
  NoDup (paths doc').
Proof.
  revert σ doc. induction calls as [|call calls IH]; intros σ doc Hnd.
  - simpl. rewrite mret_Ok. by intros [= <- _].
  - rewrite addRoutes_cons.
    intros (doc1 & σ1 & Hcall & Hrest)%bind_Ok_inv.
    eapply IH; [|exact Hrest].
    apply addRouteToAPIDeclaration_inv in Hcall as (r & op & _ & _ & Hdoc).
    by eapply merged_NoDup.
Qed.

(** C3. Start from a document whose entries have pairwise distinct paths,
    run any sequence of calls of [addRouteToAPIDeclaration] on it, then
    one more call. The document has pairwise distinct paths before and
    after that call. The call converts the route into one operation; if
    an entry with the converted path exists, that entry gets the operation
    at the end of its operations and nothing else changes; if none
    exists, a new entry with the path and that single operation is added
    at the end of the document. *)
Theorem apis_paths_distinct
  (σ0 σ σ' : gmap nat (gmap string value)) calls doc0 doc route classDef doc' :
  NoDup (paths doc0) →
  addRoutes calls doc0 σ0 = Ok (doc, σ) →
  addRouteToAPIDeclaration route classDef doc σ = Ok (doc', σ') →
  let p := convertPathFragments (route_path route) in
  NoDup (paths doc) ∧ NoDup (paths doc') ∧
  ∃ processedRoute op,
    doRouteParameterHacks route classDef σ = Ok (processedRoute, σ') ∧
    routeToAPI processedRoute σ' = Ok (mkAPI p [op], σ') ∧
    (∀ pre existing post,
       apis doc = pre ++ existing :: post → api_path existing = p →
       apis doc' = pre ++ mkAPI p (operations existing ++ [op]) :: post) ∧
    (p ∉ paths doc → apis doc' = apis doc ++ [mkAPI p [op]]).
Proof.
  intros Hnd0 Hcalls Hcall p.
  pose proof (addRoutes_NoDup _ _ _ _ _ Hnd0 Hcalls) as Hnd.
  apply addRouteToAPIDeclaration_inv in Hcall
    as (processedRoute & op & Hhacks & Hapi & Hdoc).
  fold p in Hapi, Hdoc.
  split; [done|]. split; [by eapply merged_NoDup|].
  exists processedRoute, op. split; [done|]. split; [done|]. split.
  - intros pre existing post Hsplit Hp.
    rewrite Hdoc, decide_True.
    + rewrite Hsplit. apply pushOperation_split; [|done].
      unfold paths in Hnd. rewrite Hsplit, fmap_app, fmap_cons, Hp in Hnd.
      apply NoDup_app in Hnd as (_ & Hdisj & _).
      intros Hin. apply (Hdisj _ Hin), elem_of_cons. by left.
    + unfold paths. rewrite Hsplit, fmap_app, fmap_cons, Hp.
      apply elem_of_app. right. apply elem_of_cons. by left.
  - intros Hnew. by rewrite Hdoc, decide_False.
Qed.

Lemma apis_paths_distinct_witness :
  NoDup (paths (mkDocument [])) ∧
  addRoutes [(findById, None)] (mkDocument []) ∅
    = Ok (mkDocument [mkAPI "/widgets/{id}" [findByIdOp]], ∅) ∧
  addRouteToAPIDeclaration deleteById None
      (mkDocument [mkAPI "/widgets/{id}" [findByIdOp]]) ∅
    = Ok (mkDocument [mkAPI "/widgets/{id}" [findByIdOp; deleteByIdOp]], ∅) ∧
  NoDup (paths (mkDocument [mkAPI "/widgets/{id}" [findByIdOp; deleteByIdOp]])).
Proof.
  split; [apply NoDup_nil_2|].
  split; [reflexivity|]. split; [reflexivity|].
  eapply (apis_paths_distinct ∅ ∅ ∅ [(findById, None)] (mkDocument [])
            (mkDocument [mkAPI "/widgets/{id}" [findByIdOp]])
            deleteById None);
    [apply NoDup_nil_2|reflexivity|reflexivity].
Defined.

(** ** From the arguments of the route to the parameters of the operation *)

Lemma sameFields_shownAt (σ σ1 : gmap nat (gmap string value)) l l1 :
  sameFields σ σ1 l l1 → shownAt σ l = shownAt σ1 l1.
Proof. intros (o & Hl & Hl1). unfold shownAt. by rewrite Hl, Hl1. Qed.

Lemma copied_standsFor
  seen (σ σ1 : gmap nat (gmap string value)) own own1 rets rets1 :
  copies seen σ σ1 → copied seen own own1 → copied seen rets rets1 →
  Forall2 (standsFor σ σ1 rets rets1) own own1.
Proof.
  intros (_ & Hent & Hinj & _) Hown Hrets.
  eapply Forall2_impl; [exact Hown|].
  intros l l1 Hl. simpl in Hl. split.
  { by destruct (Hent _ _ Hl) as [_ ?]. }
  intros [rets1' ->]%head_Some.
  inversion Hrets as [|r0 ? rets' ? Hr0 _]; subst.
  by rewrite (Hinj _ _ _ Hl Hr0).
Qed.

Lemma allocated_standsFor
  seen (σ σ1 : gmap nat (gmap string value)) app rets rets1 :
  copies seen σ σ1 → copied seen rets rets1 → allocated σ app →
  Forall2 (standsFor σ σ1 rets rets1) app app.
Proof.
  intros (Hsub & Hent & _) Hrets Happ. apply Forall_Forall2_diag.
  eapply Forall_impl; [exact Happ|]. intros l [o Hl]. split.
  { exists o. split; [done|]. by eapply lookup_weaken. }
  intros [rets1' ->]%head_Some.
  inversion Hrets as [|r0 ? rets' ? Hr0 _]; subst.
  destruct (Hent _ _ Hr0) as [Hfresh _].
  destruct Hfresh. apply elem_of_dom. eauto.
Qed.

Lemma shown_function o :
  is_function (field o "http") = true → shown o = false.
Proof. unfold shown. by destruct (field o "http"). Qed.

Lemma shown_req_body o :
  prop (field o "http") "source" = VStr "req" ∨
  prop (field o "http") "source" = VStr "body" →
  shown o = false.
Proof.
  unfold shown.
  destruct (field o "http") as [| | | | | |http|]; try by intros [|].
  simpl. by intros [-> | ->].
Qed.

Lemma shown_no_http o : o !! "http" = None → shown o = true.
Proof. unfold shown, field. by intros ->. Qed.

(** The arguments of the processed route, one for each argument of the
    call that passes the filter, in the order of the call. *)
Lemma kept_arguments
  (σ σ' : gmap nat (gmap string value)) route classDef processedRoute :
  allocated σ (default [] (route_accepts route)) →
  allocated σ (default [] (route_returns route)) →
  allocated σ (appendedAccepts route classDef) →
  doRouteParameterHacks route classDef σ = Ok (processedRoute, σ') →
  ∃ kept rets1,
    processedRoute = mkRoute (route_path route) (route_verb route)
                       (route_method route) (Some kept) (Some rets1)
                       (route_description route) ∧
    allocated σ' rets1 ∧
    Forall2 (keptAs σ σ' route classDef)
      (filter (λ l, shownAt σ l)
         (default [] (route_accepts route) ++ appendedAccepts route classDef))
      kept.
Proof.
  intros Hown Hrets Happ Hhacks.
  destruct (doRouteParameterHacks_inv _ _ _ _ _ Hown Hrets Hhacks)
    as (seen & own1 & rets1 & σ1 & σ2 & Hcopies & Hown1 & Hrets1 & Halloc1
        & Hfix & -> & Hσ').
  eexists _, rets1. split; [reflexivity|].
  set (rets := default [] (route_returns route)) in *.
  set (inputs := default [] (route_accepts route) ++ appendedAccepts route classDef).
  set (inputs1 := own1 ++ appendedAccepts route classDef) in *.
  assert (∀ l, is_Some (σ1 !! l) → is_Some (σ' !! l)) as Hdom.
  { intros l Hl. rewrite Hσ'.
    assert (is_Some (σ2 !! l)) as [d ->]; [|by case_decide].
    destruct (head rets1); [|by subst].
    destruct Hfix as (d & _ & ->). apply lookup_insert_is_Some'. by right. }
  split.
  { apply Forall_forall. intros r1 [i Hi]%list_elem_of_lookup. apply Hdom.
    destruct (Forall2_lookup_r _ _ _ _ _ Hrets1 Hi) as (r0 & _ & Hseen).
    destruct Hcopies as (_ & Hent & _).
    destruct (Hent _ _ Hseen) as (_ & o & _ & ->). eauto. }
  assert (Forall2 (standsFor σ σ1 rets rets1) inputs inputs1) as Hsame.
  { apply Forall2_app; [by eapply copied_standsFor|].
    by eapply allocated_standsFor. }
  assert (Forall2 (standsFor σ σ1 rets rets1)
            (filter (λ l, shownAt σ l) inputs)
            (filter (λ l, shownAt σ1 l) inputs1)) as Hkept.
  { eapply Forall2_filter; [|exact Hsame].
    intros l l1 [Hl _]. by rewrite (sameFields_shownAt _ _ _ _ Hl). }
  apply Forall2_same_length_lookup. split; [by eapply Forall2_length|].
  intros i l l1 Hl Hl1.
  destruct (Forall2_lookup_lr _ _ _ _ _ _ Hkept Hl Hl1)
    as ((o & Ho & Ho1) & Hfirst).
  assert (shown o = true) as Hshown.
  { apply list_elem_of_lookup_2, list_elem_of_filter in Hl as [Hs _].
    unfold shownAt in Hs. rewrite Ho in Hs. by apply Is_true_true. }
  assert (∃ o', σ2 !! l1 = Some o' ∧
                (o' = o ∨ o' = fixedReturn (nameOf classDef) o) ∧
                (head rets ≠ Some l → o' = o)) as (o' & Ho' & Hcases & Hplain).
  { destruct (head rets1) as [r1|] eqn:Hr1.
    - destruct Hfix as (d & Hd & ->).
      destruct (decide (r1 = l1)) as [->|Hne].
      + rewrite lookup_insert_eq. assert (d = o) as -> by congruence.
        eexists. split; [done|]. split; [by right|].
        intros Hnot. by destruct Hnot, Hfirst.
      + rewrite lookup_insert_ne by done. eauto.
    - subst σ2. eauto. }
  exists o, o'. split; [done|]. split; [done|]. split; [|done].
  rewrite Hσ', decide_True, Ho'; [done|]. left.
  by eapply list_elem_of_lookup_2.
Qed.

(** The parameters of the converted operation, one for each argument that
    passes the filter, in the order of the arguments. *)
Lemma converted_parameters
  (σ σ' : gmap nat (gmap string value)) route classDef processedRoute api :
  allocated σ (default [] (route_accepts route)) →
  allocated σ (default [] (route_returns route)) →
  allocated σ (appendedAccepts route classDef) →
  doRouteParameterHacks route classDef σ = Ok (processedRoute, σ') →
  routeToAPI processedRoute σ' = Ok (api, σ') →
  ∃ op, operations api = [op] ∧
    Forall2 (convertedFrom σ route classDef)
      (filter (λ l, shownAt σ l)
         (default [] (route_accepts route) ++ appendedAccepts route classDef))
      (parameters op).
Proof.
  intros Hown Hrets Happ Hhacks Hapi.
  destruct (kept_arguments _ _ _ _ _ Hown Hrets Happ Hhacks)
    as (kept & rets1 & -> & _ & Hkept).
  apply routeToAPI_inv in Hapi as (_ & returnDesc & params & _ & Hparams & ->).
  eexists. split; [reflexivity|]. simpl in *.
  eapply Forall2_trans; [|exact Hkept|exact Hparams].
  intros l l1 param (o & o' & Ho & Hshown & Ho' & Hcases & Hplain)
         (o2 & Ho2 & Hconv).
  assert (o2 = translated o') as -> by congruence.
  exists o, o'. split; [done|]. split; [done|]. split; [|done].
  by rewrite <- Hconv.
Qed.

(** C7. In a successful call on a store in which every reference names
    an object, the parameters of the resulting operation are, in the
    order of the arguments (the route's own, then those appended from the
    shared constructor), the conversions of exactly the arguments that
    pass the filter. The filter drops an argument whose [http] is a
    function and one whose [http.source] is 'req' or 'body', and keeps
    every argument without [http]. *)
Theorem derived_arguments_filtered
  (σ σ' : gmap nat (gmap string value)) route classDef doc doc' :
  allocated σ (default [] (route_accepts route)) →
  allocated σ (default [] (route_returns route)) →
  allocated σ (appendedAccepts route classDef) →
  addRouteToAPIDeclaration route classDef doc σ = Ok (doc', σ') →
  let p := convertPathFragments (route_path route) in
  ∃ processedRoute op,
    doRouteParameterHacks route classDef σ = Ok (processedRoute, σ') ∧
    routeToAPI processedRoute σ' = Ok (mkAPI p [op], σ') ∧
    (∃ api, api ∈ apis doc' ∧ api_path api = p ∧
            last (operations api) = Some op) ∧
    Forall2 (convertedFrom σ route classDef)
      (filter (λ l, shownAt σ l)
         (default [] (route_accepts route) ++ appendedAccepts route classDef))
      (parameters op) ∧
    (∀ l o, σ !! l = Some o →
            is_function (field o "http") = true → shownAt σ l = false) ∧
    (∀ l o, σ !! l = Some o →
            prop (field o "http") "source" = VStr "req" ∨
            prop (field o "http") "source" = VStr "body" →
            shownAt σ l = false) ∧
    (∀ l o, σ !! l = Some o → o !! "http" = None → shownAt σ l = true).
Proof.
  intros Hown Hrets Happ Hcall p.
  apply addRouteToAPIDeclaration_inv in Hcall
    as (processedRoute & op & Hhacks & Hapi & Hdoc).
  fold p in Hapi, Hdoc.
  exists processedRoute, op. split; [done|]. split; [done|]. split.
  { rewrite Hdoc. destruct (decide (p ∈ paths doc)) as [Hin|Hin].
    - by apply pushOperation_last.
    - exists (mkAPI p [op]). split; [|done].
      apply elem_of_app. right. apply elem_of_cons. by left. }
  split.
  { destruct (converted_parameters _ _ _ _ _ _ Hown Hrets Happ Hhacks Hapi)
      as (op' & [= <-] & Hps). done. }
  unfold shownAt.
  split; [|split]; intros l o ->; simpl.
  - apply shown_function.
  - apply shown_req_body.
  - apply shown_no_http.
Qed.

Lemma renameStore_allocated :
  allocated renameStore [1%nat; 2%nat; 3%nat] ∧
  allocated renameStore [4%nat] ∧
  allocated renameStore [0%nat].
Proof.
  repeat split; repeat (apply Forall_cons_2; [by eexists|]); apply Forall_nil_2.
Defined.

Lemma derived_arguments_filtered_witness :
  allocated renameStore [1%nat; 2%nat; 3%nat] ∧
  allocated renameStore [4%nat] ∧
  allocated renameStore [0%nat] ∧
  ∃ doc' σ' op,
    addRouteToAPIDeclaration renameRoute (Some widgetClass) (mkDocument [])
      renameStore = Ok (doc', σ') ∧
    (∃ api, api ∈ apis doc' ∧ api_path api = "/widgets/{id}/rename" ∧
            last (operations api) = Some op) ∧
    Forall2 (convertedFrom renameStore renameRoute (Some widgetClass))
      [2%nat; 0%nat] (parameters op) ∧
    shownAt renameStore 1%nat = false ∧
    shownAt renameStore 3%nat = false.
Proof.
  destruct renameStore_allocated as (Hown & Hrets & Hctor).
  split; [done|]. split; [done|]. split; [done|].
  destruct (derived_arguments_filtered renameStore
              (match addRouteToAPIDeclaration renameRoute (Some widgetClass)
                       (mkDocument []) renameStore with
               | Ok r => r.2 | Throw _ => ∅ end)
              renameRoute (Some widgetClass) (mkDocument [])
              (match addRouteToAPIDeclaration renameRoute (Some widgetClass)
                       (mkDocument []) renameStore with
               | Ok r => r.1 | Throw _ => mkDocument [] end)
              Hown Hrets Hctor)
    as (processedRoute & op & _ & _ & Hlast & Hparams & Hfun & Hbody & _).
  { vm_compute. reflexivity. }
  eexists _, _, op. split; [vm_compute; reflexivity|]. split; [exact Hlast|].
  split; [exact Hparams|]. split.
  - apply (Hbody 1%nat bodyParam); [reflexivity|by right].
  - apply (Hfun 3%nat ctxParam); reflexivity.
Defined.

(** ** The return type *)

Lemma translated_field o k :
  k ∉ LDLKeys → k ∉ swaggerKeys → field (translated o) k = field o k.
Proof. intros H1 H2. unfold field. by rewrite translated_other. Qed.

Lemma plain_key k :
  k ∈ ["model"; "type"; "items"; "arg"] → (k ∉ LDLKeys) ∧ (k ∉ swaggerKeys).
Proof.
  intros Hk. unfold LDLKeys, swaggerKeys. simpl.
  rewrite !not_elem_of_cons.
  repeat (apply elem_of_cons in Hk as [->|Hk];
          [repeat split; try done; apply not_elem_of_nil|]).
  by apply elem_of_nil in Hk.
Qed.

Lemma translated_plain o k :
  k ∈ ["model"; "type"; "items"; "arg"] →
  field (translated o) k = field o k.
Proof. intros [? ?]%plain_key. by apply translated_field. Qed.

(** The descriptor that [routeToAPI] reads as [returnDesc]: the copy of
    the route's first return descriptor, fixed and translated. *)
Lemma converted_return
  (σ σ' : gmap nat (gmap string value)) route classDef processedRoute api
  returns o :
  allocated σ (default [] (route_accepts route)) →
  allocated σ (default [] (route_returns route)) →
  head (default [] (route_returns route)) = Some returns →
  σ !! returns = Some o →
  doRouteParameterHacks route classDef σ = Ok (processedRoute, σ') →
  routeToAPI processedRoute σ' = Ok (api, σ') →
  ∃ op, operations api = [op] ∧
    let fixed := fixedReturn (nameOf classDef) o in
    op_type op = js_or (field fixed "model")
                       (prepareDataType (field fixed "type")) ∧
    op_items op = field fixed "items".
Proof.
  intros Hown Hrets Hhead Ho Hhacks Hapi.
  destruct (doRouteParameterHacks_inv _ _ _ _ _ Hown Hrets Hhacks)
    as (seen & own1 & rets1 & σ1 & σ2 & Hcopies & Hown1 & Hrets1 & Halloc1
        & Hfix & -> & Hσ').
  apply routeToAPI_inv in Hapi as (_ & returnDesc & params & Hdesc & _ & ->).
  eexists. split; [reflexivity|]. simpl in *.
  apply head_Some in Hhead as [rets' Hhead]. rewrite Hhead in Hrets1.
  inversion Hrets1 as [|? r1 ? rets1' Hr1 _]; subst rets1.
  destruct Hcopies as (_ & Hent & _).
  destruct (Hent _ _ Hr1) as (_ & o' & Ho' & Hσ1).
  assert (o' = o) as -> by congruence.
  simpl in *. destruct Hfix as (o1 & Ho1 & ->).
  assert (o1 = o) as -> by congruence.
  destruct Hdesc as (o2 & Ho2 & ->).
  rewrite Hσ', decide_True, lookup_insert_eq in Ho2
    by (right; apply elem_of_cons; by left).
  injection Ho2 as <-.
  rewrite !translated_plain; [done|..];
    rewrite !elem_of_cons; tauto.
Qed.

Lemma fixedReturn_object name o :
  field o "arg" = VStr "data" → field o "type" = VStr "object" →
  field (fixedReturn name o) "model" = field o "model" ∧
  field (fixedReturn name o) "type" = VStr name ∧
  field (fixedReturn name o) "items" = field o "items".
Proof.
  intros Harg Htype. unfold fixedReturn. rewrite Harg, Htype. simpl.
  unfold field.
  repeat split; by rewrite ?lookup_insert_eq, ?lookup_insert_ne by done.
Qed.

Lemma fixedReturn_array name o :
  field o "arg" = VStr "data" → field o "type" = VStr "array" →
  field (fixedReturn name o) "model" = field o "model" ∧
  field (fixedReturn name o) "type" = VStr "array" ∧
  field (fixedReturn name o) "items" = VObj {[ "$ref" := VStr name ]}.
Proof.
  intros Harg Htype. unfold fixedReturn. rewrite Harg, Htype. simpl.
  unfold field.
  repeat split;
    by repeat (rewrite lookup_insert_eq || rewrite lookup_insert_ne by done).
Qed.

Lemma prepareDataType_name name :
  name ∉ [""; "buffer"; "date"; "number"] →
  prepareDataType (VStr name) = VStr name.
Proof.
  rewrite !not_elem_of_cons. intros (H0 & H1 & H2 & H3 & _).
  unfold prepareDataType. simpl.
  apply String.eqb_neq in H0, H1, H2, H3. by rewrite H0, H1, H2, H3.
Qed.

(** The fixup leaves every object alone but the first return descriptor,
    and leaves that one alone when its [arg] is not 'data'. *)
Lemma fixReturns_frame
  (σ σ2 : gmap nat (gmap string value)) route classDef u l :
  fixReturns route classDef σ = Ok (u, σ2) →
  route_returns route ≫= head ≠ Some l ∨
  (∃ o, σ !! l = Some o ∧ field o "arg" ≠ VStr "data") →
  σ2 !! l = σ !! l.
Proof.
  intros Hfix%fixReturns_inv Hl.
  destruct (route_returns route ≫= head) as [r|]; [|by subst].
  destruct Hfix as (o & Hr & ->).
  destruct (decide (r = l)) as [->|Hne]; [|by rewrite lookup_insert_ne].
  destruct Hl as [Hl|(o' & Ho' & Harg)]; [done|].
  assert (o' = o) as -> by congruence.
  rewrite lookup_insert_eq, Hr. f_equal. unfold fixedReturn.
  destruct (field o "arg") as [| | | |s| | |] eqn:E; try done. simpl.
  destruct (String.eqb_spec s "data") as [->|]; done.
Qed.

(** C5, as the code has it. When the route's first return descriptor has
    [arg] 'data': if its declared type is 'object', the type of the
    resulting operation is the descriptor's [model] when that is truthy and
    otherwise the data type mapper's image of the class name, which is the
    class name itself unless that is empty, 'buffer', 'date' or 'number';
    if its declared type is 'array', the type of the operation is the
    [model] when that is truthy and otherwise 'array', and its items are
    [{'$ref': classDef.name}]. The fixup changes no other object: not the
    later return descriptors, and not a first one with another [arg]. *)
Theorem return_type_fixup
  (σ σ' : gmap nat (gmap string value)) route classDef doc doc' returns o :
  allocated σ (default [] (route_accepts route)) →
  allocated σ (default [] (route_returns route)) →
  head (default [] (route_returns route)) = Some returns →
  σ !! returns = Some o →
  field o "arg" = VStr "data" →
  addRouteToAPIDeclaration route (Some classDef) doc σ = Ok (doc', σ') →
  let p := convertPathFragments (route_path route) in
  let name := class_name classDef in
  ∃ processedRoute op,
    doRouteParameterHacks route (Some classDef) σ = Ok (processedRoute, σ') ∧
    routeToAPI processedRoute σ' = Ok (mkAPI p [op], σ') ∧
    (∃ api, api ∈ apis doc' ∧ api_path api = p ∧
            last (operations api) = Some op) ∧
    (field o "type" = VStr "object" →
     op_type op = js_or (field o "model") (prepareDataType (VStr name)) ∧
     (truthy (field o "model") = false →
      name ∉ [""; "buffer"; "date"; "number"] → op_type op = VStr name)) ∧
    (field o "type" = VStr "array" →
     op_type op = js_or (field o "model") (VStr "array") ∧
     (truthy (field o "model") = false → op_type op = VStr "array") ∧
     op_items op = VObj {[ "$ref" := VStr name ]}) ∧
    (∀ (τ τ2 : gmap nat (gmap string value)) someRoute someClass u l,
       fixReturns someRoute someClass τ = Ok (u, τ2) →
       route_returns someRoute ≫= head ≠ Some l ∨
       (∃ d, τ !! l = Some d ∧ field d "arg" ≠ VStr "data") →
       τ2 !! l = τ !! l).
Proof.
  intros Hown Hrets Hhead Ho Harg Hcall p name.
  apply addRouteToAPIDeclaration_inv in Hcall
    as (processedRoute & op & Hhacks & Hapi & Hdoc).
  fold p in Hapi, Hdoc.
  exists processedRoute, op. split; [done|]. split; [done|]. split.
  { rewrite Hdoc. destruct (decide (p ∈ paths doc)) as [Hin|Hin].
    - by apply pushOperation_last.
    - exists (mkAPI p [op]). split; [|done].
      apply elem_of_app. right. apply elem_of_cons. by left. }
  destruct (converted_return _ _ _ _ _ _ _ _ Hown Hrets Hhead Ho Hhacks Hapi)
    as (op' & [= <-] & Htype & Hitems).
  simpl in Htype, Hitems. fold name in Htype, Hitems.
  split; [|split; [|intros *; apply fixReturns_frame]].
  - intros Hobj.
    destruct (fixedReturn_object name o Harg Hobj) as (Hm & Ht & _).
    rewrite Hm, Ht in Htype. split; [done|].
    intros Hmodel Hname. rewrite Htype. unfold js_or. rewrite Hmodel.
    by apply prepareDataType_name.
  - intros Harr.
    destruct (fixedReturn_array name o Harg Harr) as (Hm & Ht & Hi).
    rewrite Hm, Ht in Htype. rewrite Hi in Hitems.
    split; [done|]. split; [|done].
    intros Hmodel. rewrite Htype. unfold js_or. by rewrite Hmodel.
Qed.

Lemma return_type_fixup_witness :
  allocated renameStore [1%nat; 2%nat; 3%nat] ∧
  allocated renameStore [4%nat] ∧
  renameStore !! 4%nat = Some dataReturn ∧
  field dataReturn "arg" = VStr "data" ∧
  field dataReturn "type" = VStr "object" ∧
  ∃ doc' σ' op,
    addRouteToAPIDeclaration renameRoute (Some widgetClass) (mkDocument [])
      renameStore = Ok (doc', σ') ∧
    (∃ api, api ∈ apis doc' ∧ api_path api = "/widgets/{id}/rename" ∧
            last (operations api) = Some op) ∧
    op_type op = VStr "Widget".
Proof.
  destruct renameStore_allocated as (Hown & Hrets & _).
  split; [done|]. split; [done|]. split; [reflexivity|].
  split; [reflexivity|]. split; [reflexivity|].
  destruct (return_type_fixup renameStore
              (match addRouteToAPIDeclaration renameRoute (Some widgetClass)
                       (mkDocument []) renameStore with
               | Ok r => r.2 | Throw _ => ∅ end)
              renameRoute widgetClass (mkDocument [])
              (match addRouteToAPIDeclaration renameRoute (Some widgetClass)
                       (mkDocument []) renameStore with
               | Ok r => r.1 | Throw _ => mkDocument [] end)
              4%nat dataReturn Hown Hrets)
    as (processedRoute & op & _ & _ & Hlast & Hobject & _);
    [reflexivity|reflexivity|reflexivity|vm_compute; reflexivity|].
  eexists _, _, op. split; [vm_compute; reflexivity|]. split; [exact Hlast|].
  apply Hobject; [reflexivity|reflexivity|].
  rewrite !not_elem_of_cons. repeat split; try done. apply not_elem_of_nil.
Defined.

(** C5 as the specification words it fails in two ways: a first return
    descriptor that names a [model] gives the operation that model, not
    the class name; and a class named like an LDL primitive type is
    renamed by the data type mapper. *)
Lemma return_type_fixup_counterexample :
  (field summaryReturn "arg" = VStr "data" ∧
   field summaryReturn "type" = VStr "object" ∧
   ∃ op σ', addRouteToAPIDeclaration summaryRoute (Some widgetClass)
              (mkDocument []) summaryStore
            = Ok (mkDocument [mkAPI "/widgets/summary" [op]], σ') ∧
            op_type op = VStr "WidgetSummary" ∧
            op_type op ≠ VStr (class_name widgetClass)) ∧
  (field dataReturn "arg" = VStr "data" ∧
   field dataReturn "type" = VStr "object" ∧
   ∃ op σ', addRouteToAPIDeclaration numberRoute (Some numberClass)
              (mkDocument []) numberStore
            = Ok (mkDocument [mkAPI "/numbers/{id}" [op]], σ') ∧
            op_type op = VStr "double" ∧
            op_type op ≠ VStr (class_name numberClass)).
Proof.
  split.
  - split; [reflexivity|]. split; [reflexivity|].
    eexists _, _. split; [vm_compute; reflexivity|]. by split.
  - split; [reflexivity|]. split; [reflexivity|].
    eexists _, _. split; [vm_compute; reflexivity|]. by split.
Qed.

(** ** What a call leaves in the caller's objects *)

(** The objects that exist before the call are as they were after it,
    but for the arguments of the shared constructor that were appended
    and passed the filter: those are translated in place. *)
Lemma hacks_store_frame
  (σ σ' : gmap nat (gmap string value)) route classDef processedRoute l :
  allocated σ (default [] (route_accepts route)) →
  allocated σ (default [] (route_returns route)) →
  allocated σ (appendedAccepts route classDef) →
  doRouteParameterHacks route classDef σ = Ok (processedRoute, σ') →
  is_Some (σ !! l) →
  σ' !! l =
    if decide (l ∈ filter (λ l, shownAt σ l) (appendedAccepts route classDef))
    then translated <$> σ !! l else σ !! l.
Proof.
  intros Hown Hrets Happ Hhacks [o Hl].
  destruct (doRouteParameterHacks_inv _ _ _ _ _ Hown Hrets Hhacks)
    as (seen & own1 & rets1 & σ1 & σ2 & Hcopies & Hown1 & Hrets1 & Halloc1
        & Hfix & _ & Hσ').
  pose proof Hcopies as (Hsub & Hent & _).
  assert (∀ ls ls1, copied seen ls ls1 → l ∉ ls1) as Hfresh.
  { intros ls ls1 Hls [i Hi]%list_elem_of_lookup.
    destruct (Forall2_lookup_r _ _ _ _ _ Hls Hi) as (l0 & _ & Hseen).
    destruct (Hent _ _ Hseen) as [Hnew _].
    apply Hnew, elem_of_dom. eauto. }
  assert (σ1 !! l = Some o) as Hl1 by by eapply lookup_weaken.
  assert (σ2 !! l = Some o) as Hl2.
  { destruct (head rets1) as [r1|] eqn:Hr1; [|by subst].
    destruct Hfix as (o1 & _ & ->). rewrite lookup_insert_ne; [done|].
    intros ->. apply (Hfresh _ _ Hrets1).
    apply head_Some in Hr1 as [? ->]. apply elem_of_cons. by left. }
  rewrite Hσ', Hl2, Hl.
  assert (shownAt σ1 l = shownAt σ l) as Hshown.
  { unfold shownAt. by rewrite Hl, Hl1. }
  destruct (decide (l ∈ filter (λ l, shownAt σ l) (appendedAccepts route classDef)))
    as [Hin|Hin].
  - rewrite decide_True; [done|]. left.
    apply list_elem_of_filter in Hin as [Hs Hin].
    apply list_elem_of_filter. rewrite Hshown. split; [done|].
    apply elem_of_app. by right.
  - rewrite decide_False; [done|].
    intros [[Hs [Hin'|Hin']%elem_of_app]%list_elem_of_filter|Hin'].
    + by apply (Hfresh _ _ Hown1).
    + apply Hin, list_elem_of_filter. by rewrite <- Hshown.
    + by apply (Hfresh _ _ Hrets1).
Qed.

(** The same for the exported function: converting and merging read the
    store and write to none of its objects. *)
Lemma call_store_frame
  (σ σ' : gmap nat (gmap string value)) route classDef doc doc' l :
  allocated σ (default [] (route_accepts route)) →
  allocated σ (default [] (route_returns route)) →
  allocated σ (appendedAccepts route classDef) →
  addRouteToAPIDeclaration route classDef doc σ = Ok (doc', σ') →
  is_Some (σ !! l) →
  σ' !! l =
    if decide (l ∈ filter (λ l, shownAt σ l) (appendedAccepts route classDef))
    then translated <$> σ !! l else σ !! l.
Proof.
  intros Hown Hrets Happ Hcall Hl.
  apply addRouteToAPIDeclaration_inv in Hcall
    as (processedRoute & op & Hhacks & _ & _).
  by eapply hacks_store_frame.
Qed.

(** C2. The call changes an object of its [classDef] argument: after a
    call for an instance method, the argument descriptor of the shared
    constructor has lost its [doc] key and gained [description]. *)
Theorem sharedCtor_accepts_mutated :
  ∃ doc' σ',
    addRouteToAPIDeclaration deepRoute (Some widgetClass) (mkDocument [])
      ctorStore = Ok (doc', σ') ∧
    class_sharedCtor widgetClass = Some (mkSharedCtor (Some [0%nat])) ∧
    ctorStore !! 0%nat
      = Some {[ "arg" := VStr "id"; "doc" := VStr "Model id";
                "type" := VStr "any" ]} ∧
    σ' !! 0%nat
      = Some {[ "arg" := VStr "id"; "description" := VStr "Model id";
                "type" := VStr "any" ]} ∧
    σ' !! 0%nat ≠ ctorStore !! 0%nat.
Proof.
  eexists _, _. split; [vm_compute; reflexivity|].
  split; [reflexivity|]. split; [reflexivity|].
  split; [vm_compute; reflexivity|]. by vm_compute.
Qed.

(** C1. The call throws a [TypeError] on a route with an argument that
    names the model 'array' and declares no [type]: the converter reads
    the first entry of the missing [type]. It also throws when there is no
    class and the first return descriptor asks for the class name. *)
Theorem missing_type_throws :
  field arrayModelParam "type" = VUndef ∧
  addRouteToAPIDeclaration plainRoute (Some plainClass) (mkDocument [])
    arrayModelStore = Throw TypeError ∧
  addRouteToAPIDeclaration numberRoute None (mkDocument []) numberStore
    = Throw TypeError.
Proof. split; [reflexivity|]. split; vm_compute; reflexivity. Qed.

(** ** When a call succeeds *)

Lemma cloneList_Ok σ0 ls seen (σ : gmap nat (gmap string value)) :
  copies seen σ0 σ → allocated σ0 ls →
  ∃ r σ', cloneList ls seen σ = Ok (r, σ').
Proof.
  revert seen σ. induction ls as [|l ls IH]; intros seen σ Hcopies Halloc.
  { by eexists _, _. }
  apply Forall_cons in Halloc as [[o Hl0] Halloc].
  rewrite cloneList_cons. destruct (seen !! l) as [l1|] eqn:Hseen.
  - destruct (IH _ _ Hcopies Halloc) as (r & σ' & Hrec).
    rewrite (bind_Ok _ _ _ _ _ Hrec). by eexists _, _.
  - assert (σ !! l = Some o) as Hl.
    { eapply lookup_weaken; [exact Hl0|]. apply Hcopies. }
    rewrite (bind_Ok _ _ _ _ _ (read_Ok _ _ _ Hl)).
    rewrite (bind_Ok _ _ _ (fresh (dom σ)) (<[fresh (dom σ) := o]> σ))
      by reflexivity.
    assert (σ !! fresh (dom σ) = None) as Hfresh
      by apply not_elem_of_dom, is_fresh.
    pose proof (copies_insert _ _ _ _ _ _ Hcopies Hseen Hl0 Hfresh) as Hc2.
    destruct (IH _ _ Hc2 Halloc) as (r & σ' & Hrec).
    rewrite (bind_Ok _ _ _ _ _ Hrec). by eexists _, _.
Qed.

Lemma cloneArray_Ok σ0 a seen (σ : gmap nat (gmap string value)) :
  copies seen σ0 σ → allocated σ0 (default [] a) →
  ∃ r σ', cloneArray a seen σ = Ok (r, σ').
Proof.
  intros Hcopies Halloc. destruct a as [ls|]; simpl; [|by eexists _, _].
  destruct (cloneList_Ok _ _ _ _ Hcopies Halloc) as (r & σ' & Hrec).
  rewrite (bind_Ok _ _ _ _ _ Hrec). by eexists _, _.
Qed.

Lemma cloneDeep_Ok (σ : gmap nat (gmap string value)) route :
  allocated σ (default [] (route_accepts route)) →
  allocated σ (default [] (route_returns route)) →
  ∃ route1 σ1, cloneDeep route σ = Ok (route1, σ1).
Proof.
  intros Hown Hrets. unfold cloneDeep.
  destruct (cloneArray_Ok _ _ _ _ (copies_refl σ) Hown) as ([a sa] & σa & Ha).
  rewrite (bind_Ok _ _ _ _ _ Ha).
  destruct (cloneArray_inv _ _ _ _ _ _ _ (copies_refl σ) Hown Ha) as (Hc & _).
  destruct (cloneArray_Ok _ _ _ _ Hc Hrets) as (r & σr & Hr).
  simpl. rewrite (bind_Ok _ _ _ _ _ Hr). by eexists _, _.
Qed.

Lemma filterM_shownArg_Ok (σ : gmap nat (gmap string value)) ls :
  allocated σ ls →
  filterM shownArg ls σ = Ok (filter (λ l, shownAt σ l) ls, σ).
Proof.
  induction ls as [|l ls IH]; [done|].
  intros [[o Hl] Hls]%Forall_cons. rewrite filterM_cons.
  assert (shownArg l σ = Ok (shownAt σ l, σ)) as Harg.
  { unfold shownArg, shownAt.
    by rewrite (bind_Ok _ _ _ _ _ (read_Ok _ _ _ Hl)), Hl. }
  rewrite (bind_Ok _ _ _ _ _ Harg), (bind_Ok _ _ _ _ _ (IH Hls)).
  rewrite mret_Ok, filter_cons. by destruct (shownAt σ l).
Qed.

Lemma mapM_translateKeys_Ok (σ : gmap nat (gmap string value)) ls :
  allocated σ ls → ∃ σ', mapM translateKeys ls σ = Ok (ls, σ').
Proof.
  revert σ. induction ls as [|l ls IH]; intros σ; [by eexists|].
  intros [[o Hl] Hls]%Forall_cons. rewrite mapM_cons.
  rewrite (bind_Ok _ _ _ _ _ (translateKeys_Ok _ _ _ Hl)).
  destruct (IH (<[l := translated o]> σ)) as [σ' Hrec].
  { eapply Forall_impl; [exact Hls|]. intros k Hk. simpl.
    apply lookup_insert_is_Some'. by right. }
  rewrite (bind_Ok _ _ _ _ _ Hrec). by eexists.
Qed.

Lemma fixReturns_Ok (σ : gmap nat (gmap string value)) route classDef :
  allocated σ (default [] (route_returns route)) →
  is_Some classDef →
  ∃ σ', fixReturns route classDef σ = Ok (tt, σ').
Proof.
  intros Hrets [c ->]. unfold fixReturns.
  destruct (route_returns route ≫= head) as [r|] eqn:Hhead; [|by eexists].
  assert (is_Some (σ !! r)) as [o Hr].
  { destruct (route_returns route) as [rets|]; [|done]. simpl in *.
    apply head_Some in Hhead as [? ->]. by apply Forall_cons in Hrets as [? _]. }
  rewrite (bind_Ok _ _ _ _ _ (read_Ok _ _ _ Hr)).
  destruct (str_eq (field o "arg") "data"); [|by eexists].
  destruct (str_eq (field o "type") "object").
  { simpl. rewrite (bind_Ok _ _ _ (class_name c) σ) by done.
    rewrite (write_Ok _ _ _ _ Hr). by eexists. }
  destruct (str_eq (field o "type") "array"); [|by eexists].
  simpl. rewrite (bind_Ok _ _ _ (class_name c) σ) by done.
  rewrite (write_Ok _ _ _ _ Hr). by eexists.
Qed.

Lemma mapM_acceptToParameter_Ok (σ : gmap nat (gmap string value)) route ls :
  Forall (λ l, ∃ o p, σ !! l = Some o ∧ toParameter route o = Ok p) ls →
  ∃ ps, mapM (acceptToParameter route) ls σ = Ok (ps, σ).
Proof.
  induction ls as [|l ls IH]; [by eexists|].
  intros [(o & p & Hl & Hp) Hls]%Forall_cons. rewrite mapM_cons.
  assert (acceptToParameter route l σ = Ok (p, σ)) as Hacc.
  { by rewrite (acceptToParameter_Ok _ _ _ _ Hl), Hp. }
  rewrite (bind_Ok _ _ _ _ _ Hacc).
  destruct (IH Hls) as [ps Hrec].
  rewrite (bind_Ok _ _ _ _ _ Hrec). by eexists.
Qed.

Lemma toParameter_convertible route o :
  convertible route o → ∃ p, toParameter route o = Ok p.
Proof.
  intros Hconv. unfold toParameter. cbv zeta.
  destruct (index0 (field o "type")) as [e|err] eqn:Hidx.
  { destruct (str_eq _ "array"); by eexists. }
  assert (field o "type" = VUndef ∨ field o "type" = VNull) as Hmissing.
  { destruct (field o "type") as [| | | |[|]|[|]| |]; try done; auto. }
  destruct Hconv as [[H1 H2]|[Hmodel Howner]]; [by destruct Hmissing|].
  assert (prepareDataType (field o "type") = VStr "void") as ->
    by by destruct Hmissing as [-> | ->].
  match goal with
  | |- context [str_eq ?t "array"] => destruct (str_eq t "array") eqn:Harr
  end; [|by eexists].
  exfalso. revert Harr.
  destruct (str_eq (js_or (field o "name") (field o "arg")) "data" && _); simpl.
  - intros Heq%String.eqb_eq. done.
  - unfold js_or. destruct (truthy (field o "model")); [|done].
    destruct (field o "model") as [| | | |s| | |]; try done. simpl.
    intros Heq%String.eqb_eq. by subst s.
Qed.

Lemma allocated_mono (σ σ' : gmap nat (gmap string value)) ls :
  (∀ l, is_Some (σ !! l) → is_Some (σ' !! l)) →
  allocated σ ls → allocated σ' ls.
Proof.
  intros Hdom Hls. eapply Forall_impl; [exact Hls|]. intros l. apply Hdom.
Qed.

Lemma doRouteParameterHacks_Ok
  (σ : gmap nat (gmap string value)) route classDef :
  allocated σ (default [] (route_accepts route)) →
  allocated σ (default [] (route_returns route)) →
  allocated σ (appendedAccepts route classDef) →
  is_Some classDef →
  ∃ processedRoute σ',
    doRouteParameterHacks route classDef σ = Ok (processedRoute, σ').
Proof.
  intros Hown Hrets Happ Hclass.
  destruct (cloneDeep_Ok _ _ Hown Hrets) as (route1 & σ1 & Hclone).
  destruct (cloneDeep_inv _ _ _ _ Hown Hrets Hclone)
    as (seen & own1 & rets1 & Hcopies & Hown1 & Hrets1 & Hroute1).
  pose proof Hcopies as (Hsub & Hent & _).
  assert (∀ ls ls1, copied seen ls ls1 → allocated σ1 ls1) as Hcopied.
  { intros ls ls1 Hls. apply Forall_forall.
    intros l1 [i Hi]%list_elem_of_lookup.
    destruct (Forall2_lookup_r _ _ _ _ _ Hls Hi) as (l0 & _ & Hseen).
    destruct (Hent _ _ Hseen) as (_ & o & _ & ->). eauto. }
  unfold doRouteParameterHacks. rewrite (bind_Ok _ _ _ _ _ Hclone). cbv zeta.
  rewrite addSharedCtorAccepts_accepts.
  assert (default [] (route_accepts route1) = own1) as Eown.
  { rewrite Hroute1. simpl.
    destruct (route_accepts route); [done|]. by inversion Hown1. }
  assert (default [] (route_returns route1) = rets1) as Erets.
  { rewrite Hroute1. simpl.
    destruct (route_returns route); [done|]. by inversion Hrets1. }
  assert (appendedAccepts route1 classDef = appendedAccepts route classDef)
    as Eapp by by rewrite Hroute1.
  rewrite Eown, Eapp.
  assert (allocated σ1 (own1 ++ appendedAccepts route classDef)) as Hinputs.
  { apply Forall_app. split; [by eapply Hcopied|].
    eapply allocated_mono; [|exact Happ].
    intros l [o Hl]. exists o. by eapply lookup_weaken. }
  rewrite (bind_Ok _ _ _ _ _ (filterM_shownArg_Ok _ _ Hinputs)).
  set (kept := filter _ _).
  remember (with_accepts (addSharedCtorAccepts route1 classDef) (Some kept))
    as route2 eqn:Hroute2.
  assert (default [] (route_returns route2) = rets1) as Erets2.
  { rewrite Hroute2. unfold with_accepts. simpl.
    by destruct (addSharedCtorAccepts_rest route1 classDef)
      as (_ & _ & _ & -> & _). }
  destruct (fixReturns_Ok σ1 route2 classDef) as [σ2 Hfix]; [|done|].
  { rewrite Erets2. by eapply Hcopied. }
  rewrite (bind_Ok _ _ _ _ _ Hfix).
  assert (∀ l, is_Some (σ1 !! l) → is_Some (σ2 !! l)) as Hdom2.
  { intros l Hl. apply fixReturns_inv in Hfix.
    destruct (route_returns route2 ≫= head); [|by subst].
    destruct Hfix as (d & _ & ->). apply lookup_insert_is_Some'. by right. }
  assert (allocated σ2 kept) as Hkept.
  { eapply allocated_mono; [exact Hdom2|].
    apply Forall_forall. intros l [_ Hl]%list_elem_of_filter.
    by apply (proj1 (Forall_forall _ _) Hinputs). }
  destruct (mapM_translateKeys_Ok _ _ Hkept) as [σ3 Hacc].
  assert (default [] (route_accepts route2) = kept) as -> by by rewrite Hroute2.
  rewrite (bind_Ok _ _ _ _ _ Hacc).
  assert (allocated σ3 rets1) as Hrets3.
  { apply mapM_translateKeys_inv in Hacc as (_ & _ & Hσ3).
    eapply allocated_mono; [|by eapply Hcopied].
    intros l Hl%Hdom2. rewrite Hσ3. destruct Hl as [d ->]. by case_decide. }
  assert (route_returns (with_accepts route2 (Some kept)) = route_returns route2)
    as -> by done.
  rewrite Erets2.
  destruct (mapM_translateKeys_Ok _ _ Hrets3) as [σ4 Hret].
  rewrite (bind_Ok _ _ _ _ _ Hret). by eexists _, _.
Qed.

Lemma convertible_translated route o o' classDef :
  convertible route o →
  o' = o ∨ o' = fixedReturn (nameOf classDef) o →
  convertible route (translated o').
Proof.
  intros Hconv Hcases. unfold convertible.
  rewrite !translated_plain by (rewrite !elem_of_cons; tauto).
  destruct Hcases as [->| ->]; [done|]. unfold fixedReturn.
  destruct (str_eq (field o "arg") "data"); [|done].
  destruct (str_eq (field o "type") "object").
  { left. unfold field. by rewrite lookup_insert_eq. }
  destruct (str_eq (field o "type") "array"); [|done].
  left. unfold field.
  by rewrite lookup_insert_ne, lookup_insert_eq.
Qed.

(** A call succeeds when every reference names an object, there is a
    class, and no argument that passes the filter would have the
    converter read the first entry of a [type] that it does not declare.
    Nothing else is asked of the route: its [accepts], [returns] and
    [description] may be absent, and so may the shared constructor. *)
Lemma call_succeeds
  (σ : gmap nat (gmap string value)) route classDef doc :
  allocated σ (default [] (route_accepts route)) →
  allocated σ (default [] (route_returns route)) →
  allocated σ (appendedAccepts route classDef) →
  is_Some classDef →
  (∀ l o, l ∈ default [] (route_accepts route)
                ++ appendedAccepts route classDef →
          σ !! l = Some o → shown o = true → convertible route o) →
  ∃ doc' σ', addRouteToAPIDeclaration route classDef doc σ = Ok (doc', σ').
Proof.
  intros Hown Hrets Happ Hclass Hconv.
  destruct (doRouteParameterHacks_Ok _ _ _ Hown Hrets Happ Hclass)
    as (processedRoute & σ' & Hhacks).
  destruct (kept_arguments _ _ _ _ _ Hown Hrets Happ Hhacks)
    as (kept & rets1 & Hroute & Hrets1 & Hkept).
  unfold addRouteToAPIDeclaration. rewrite (bind_Ok _ _ _ _ _ Hhacks).
  unfold addRouteToDoc.
  assert (∃ api, routeToAPI processedRoute σ' = Ok (api, σ')) as [api Hapi].
  { unfold routeToAPI. rewrite Hroute. simpl.
    assert (∃ returnDesc,
              match head rets1 with
              | Some l => read l ≫= λ o, mret (Some o)
              | None => mret None
              end σ' = Ok (returnDesc, σ')) as [returnDesc Hdesc].
    { destruct rets1 as [|r1 rets1]; [by eexists|]. simpl.
      apply Forall_cons in Hrets1 as [[o Hr1] _].
      rewrite (bind_Ok _ _ _ _ _ (read_Ok _ _ _ Hr1)). by eexists. }
    rewrite (bind_Ok _ _ _ _ _ Hdesc).
    destruct (mapM_acceptToParameter_Ok σ'
                (mkRoute (route_path route) (route_verb route)
                   (route_method route) (Some kept) (Some rets1)
                   (route_description route)) kept) as [ps Hps].
    { apply Forall_forall. intros l1 [i Hi]%list_elem_of_lookup.
      destruct (Forall2_lookup_r _ _ _ _ _ Hkept Hi)
        as (l & Hl & o & o' & Ho & Hshown & Ho' & Hcases & _).
      assert (convertible route (translated o')) as Hok.
      { eapply convertible_translated; [|exact Hcases].
        eapply Hconv; [|exact Ho|exact Hshown].
        apply list_elem_of_lookup_2 in Hl.
        by apply list_elem_of_filter in Hl as [_ ?]. }
      destruct (toParameter_convertible route _ Hok) as [p Hp].
      exists (translated o'), p. split; [done|].
      by rewrite <- Hp. }
    rewrite (bind_Ok _ _ _ _ _ Hps). by eexists. }
  rewrite (bind_Ok _ _ _ _ _ Hapi).
  destruct (routeToAPI_shape _ _ _ _ Hapi) as [op ->]. simpl.
  destruct (filter _ (apis doc)); eexists _, _; reflexivity.
Qed.

(** Without arguments and return descriptors the call succeeds, with the
    type 'void', no items and no parameters. *)
Lemma bare_route_converted
  (σ : gmap nat (gmap string value)) path verb method description classDef :
  sharedCtorAccepts classDef = None →
  addRouteToAPIDeclaration
    (mkRoute path verb method None None description) classDef (mkDocument []) σ
  = Ok (mkDocument
          [mkAPI (convertPathFragments path)
             [mkOperation (convertVerb verb) (replace_dots method)
                (VStr "void") (VStr "") [] [] description ""]],
        σ).
Proof.
  intros Hctor.
  unfold addRouteToAPIDeclaration, doRouteParameterHacks, addSharedCtorAccepts.
  rewrite Hctor. reflexivity.
Qed.

(** * Further properties *)

(** ** Paths *)

Lemma convertPathFragments_unfold path :
  convertPathFragments path =
    js_join "/" (map convertFragment (js_split "/" path)).
Proof. reflexivity. Qed.

Lemma js_split_nonempty sep s : js_split sep s ≠ [].
Proof.
  destruct s as [|c s]; [done|]. simpl.
  destruct (Ascii.eqb c sep); [done|]. by destruct (js_split sep s).
Qed.

Lemma js_join_cons_char sep a w ws :
  js_join sep (String a w :: ws) = String a (js_join sep (w :: ws)).
Proof. by destruct ws. Qed.

(** Joining what [split] gives, on the same separator, gives the string
    back. *)
Lemma js_join_split c s : js_join (String c "") (js_split c s) = s.
Proof.
  induction s as [|a s IH]; [done|]. simpl.
  destruct (Ascii.eqb_spec a c) as [->|Hne].
  - pose proof (js_split_nonempty c s).
    destruct (js_split c s) as [|w ws] eqn:E; [done|].
    cbn [js_join]. simpl. by rewrite <- IH.
  - pose proof (js_split_nonempty c s).
    destruct (js_split c s) as [|w ws] eqn:E; [done|].
    by rewrite js_join_cons_char, IH.
Qed.

Lemma occurrences_app c s t :
  occurrences c (s +:+ t) = (occurrences c s + occurrences c t)%nat.
Proof. induction s as [|a s IH]; [done|]. simpl. rewrite IH. lia. Qed.

Lemma js_split_free c s : occurrences c s = 0%nat → js_split c s = [s].
Proof.
  induction s as [|a s IH]; [done|]. simpl.
  destruct (Ascii.eqb a c); [done|]. intros H. by rewrite IH.
Qed.

Lemma js_split_app c w rest :
  occurrences c w = 0%nat →
  js_split c (w +:+ String c rest) = w :: js_split c rest.
Proof.
  induction w as [|a w IH]; simpl.
  - by rewrite Ascii.eqb_refl.
  - destruct (Ascii.eqb a c); [done|]. intros H. by rewrite IH.
Qed.

Lemma js_join_cons2 sep w w' l :
  js_join sep (w :: w' :: l) = w +:+ sep +:+ js_join sep (w' :: l).
Proof. reflexivity. Qed.

(** Splitting what [join] gives, when no part holds the separator, gives
    the parts back. *)
Lemma js_split_join c l :
  l ≠ [] → Forall (λ w, occurrences c w = 0%nat) l →
  js_split c (js_join (String c "") l) = l.
Proof.
  induction l as [|w l IH]; [done|]. intros _ [Hw Hl]%Forall_cons.
  destruct l as [|w' l]; [by apply js_split_free|].
  rewrite js_join_cons2.
  change (String c "" +:+ ?x) with (String c x).
  rewrite js_split_app by done. by rewrite IH.
Qed.

Lemma js_split_fragments c s :
  Forall (λ w, occurrences c w = 0%nat) (js_split c s).
Proof.
  induction s as [|a s IH]; [by repeat constructor|]. simpl.
  destruct (Ascii.eqb a c) eqn:E; [by constructor|].
  pose proof (js_split_nonempty c s).
  destruct (js_split c s) as [|w ws]; [done|].
  apply Forall_cons in IH as [Hw Hws]. constructor; [|done].
  simpl. by rewrite E.
Qed.

Lemma occurrences_cons c d s :
  occurrences c (String d s) =
    ((if Ascii.eqb d c then 1 else 0) + occurrences c s)%nat.
Proof. reflexivity. Qed.

Lemma convertFragment_colon rest :
  convertFragment (String ":" rest) = String "{" (rest +:+ "}").
Proof. reflexivity. Qed.

Lemma convertFragment_other a w :
  a ≠ ":"%char → convertFragment (String a w) = String a w.
Proof. intros Hne. by destruct a as [[] [] [] [] [] [] [] []]. Qed.

Lemma convertFragment_slashes w :
  occurrences "/" (convertFragment w) = occurrences "/" w.
Proof.
  destruct w as [|a w]; [done|].
  destruct (Ascii.eqb_spec a ":") as [->|Hne].
  - rewrite convertFragment_colon, !occurrences_cons, occurrences_app.
    simpl. lia.
  - by rewrite convertFragment_other.
Qed.

Lemma convertFragment_idemp w :
  convertFragment (convertFragment w) = convertFragment w.
Proof.
  destruct w as [|a w]; [done|].
  destruct (Ascii.eqb_spec a ":") as [->|Hne].
  - by rewrite convertFragment_colon.
  - by rewrite !convertFragment_other.
Qed.

Lemma starts_with_colon a w :
  starts_with ":" (String a w) = Ascii.eqb a ":".
Proof.
  cbn [starts_with]. rewrite Ascii.eqb_sym. by destruct w; rewrite andb_true_r.
Qed.

Lemma convertFragment_no_colon w :
  starts_with ":" (convertFragment w) = false.
Proof.
  destruct w as [|a w]; [done|].
  destruct (Ascii.eqb_spec a ":") as [->|Hne].
  - by rewrite convertFragment_colon.
  - rewrite convertFragment_other by done. rewrite starts_with_colon.
    by apply Ascii.eqb_neq.
Qed.

Lemma convertFragment_id w :
  starts_with ":" w = false → convertFragment w = w.
Proof.
  destruct w as [|a w]; [done|]. rewrite starts_with_colon.
  intros Hne%Ascii.eqb_neq. by apply convertFragment_other.
Qed.

(** The fragments of the converted path are the converted fragments of
    the path. *)
Lemma convertPathFragments_split path :
  js_split "/" (convertPathFragments path)
    = map convertFragment (js_split "/" path).
Proof.
  rewrite convertPathFragments_unfold. apply js_split_join.
  - pose proof (js_split_nonempty "/" path). by destruct (js_split "/" path).
  - apply Forall_map. eapply Forall_impl; [apply js_split_fragments|].
    intros w Hw. simpl. by rewrite convertFragment_slashes.
Qed.

(** [convertPathFragments] works fragment by fragment: the converted path
    has as many fragments between slashes as the path, each the
    conversion of the fragment in its place ([:name] becomes [{name}],
    any other fragment is kept), and no fragment of the converted path
    starts with a colon. *)
Theorem convertPathFragments_fragments path :
  js_split "/" (convertPathFragments path)
    = map convertFragment (js_split "/" path) ∧
  length (js_split "/" (convertPathFragments path))
    = length (js_split "/" path) ∧
  Forall (λ fragment, starts_with ":" fragment = false)
         (js_split "/" (convertPathFragments path)).
Proof.
  rewrite convertPathFragments_split.
  split; [done|]. split; [by rewrite length_map|].
  apply Forall_map, Forall_forall. intros w _. apply convertFragment_no_colon.
Qed.

(** Converting a converted path changes nothing, and the paths that
    [convertPathFragments] leaves as they are are exactly those in which
    no fragment starts with a colon. *)
Theorem convertPathFragments_idempotent path :
  convertPathFragments (convertPathFragments path) = convertPathFragments path ∧
  (convertPathFragments path = path ↔
   Forall (λ fragment, starts_with ":" fragment = false) (js_split "/" path)).
Proof.
  split; [|split].
  - rewrite (convertPathFragments_unfold (convertPathFragments path)).
    rewrite convertPathFragments_split.
    rewrite convertPathFragments_unfold. f_equal.
    rewrite map_map. apply map_ext. intros w. apply convertFragment_idemp.
  - intros Hfix. rewrite <- Hfix at 1. rewrite convertPathFragments_split.
    apply Forall_map, Forall_forall. intros w _.
    apply convertFragment_no_colon.
  - intros Hplain. rewrite convertPathFragments_unfold.
    rewrite <- (js_join_split "/" path) at 2. f_equal.
    rewrite <- (map_id (js_split "/" path)) at 2.
    apply map_ext_Forall. eapply Forall_impl; [exact Hplain|].
    intros w. apply convertFragment_id.
Qed.

(** ** Verbs *)













(** ** Data types and nicknames *)

Lemma prepareDataType_cases type :
  prepareDataType type ∈
    [VStr "void"; VStr "array"; VStr "byte"; VStr "Date"; VStr "double"]
  ∨ (truthy type = true ∧ isArray type = false ∧
     str_eq type "buffer" = false ∧ str_eq type "date" = false ∧
     str_eq type "number" = false ∧ prepareDataType type = type).
Proof.
  unfold prepareDataType. rewrite !elem_of_cons.
  destruct (truthy type); simpl; [|tauto].
  destruct (isArray type); [tauto|].
  destruct (str_eq type "buffer"); [tauto|].
  destruct (str_eq type "date"); [tauto|].
  destruct (str_eq type "number"); tauto.
Qed.

(** A data type that [prepareDataType] returns is truthy and no array. *)
Lemma prepareDataType_scalar type :
  truthy (prepareDataType type) = true ∧ isArray (prepareDataType type) = false.
Proof.
  destruct (prepareDataType_cases type) as [Hfixed|(Ht & Ha & _ & _ & _ & ->)];
    [|done].
  rewrite !elem_of_cons, elem_of_nil in Hfixed.
  by destruct Hfixed as [->|[->|[->|[->|[->|[]]]]]].
Qed.

(** [prepareDataType] maps its results to themselves, and a result is
    never falsy, never an array, and never one of the LDL names 'buffer',
    'date' and 'number' that it replaces. *)
Theorem prepareDataType_canonical type :
  prepareDataType (prepareDataType type) = prepareDataType type ∧
  truthy (prepareDataType type) = true ∧
  isArray (prepareDataType type) = false ∧
  prepareDataType type ≠ VStr "buffer" ∧
  prepareDataType type ≠ VStr "date" ∧
  prepareDataType type ≠ VStr "number".
Proof.
  destruct (prepareDataType_cases type)
    as [Hfixed|(Ht & Ha & H1 & H2 & H3 & Hid)].
  - rewrite !elem_of_cons, elem_of_nil in Hfixed.
    destruct Hfixed as [->|[->|[->|[->|[->|[]]]]]]; by repeat split.
  - rewrite Hid. split; [done|]. split; [done|]. split; [done|].
    repeat split; intros ->; done.
Qed.

Lemma replace_dots_length s : String.length (replace_dots s) = String.length s.
Proof.
  unfold replace_dots. induction s as [|c s IH]; [done|].
  cbn [map_chars String.length]. by rewrite IH.
Qed.

(** The nickname of an operation has no dot: it is the name of the
    method with every dot replaced by an underscore, so it has the length
    of the name, the underscores of the name and one more for each of
    its dots, and splitting it at dots gives one part. *)
Theorem nickname_has_no_dot method :
  occurrences "." (replace_dots method) = 0%nat ∧
  String.length (replace_dots method) = String.length method ∧
  occurrences "_" (replace_dots method)
    = (occurrences "_" method + occurrences "." method)%nat ∧
  js_split "." (replace_dots method) = [replace_dots method].
Proof.
  assert (occurrences "." (replace_dots method) = 0%nat) as Hdots.
  { induction method as [|c s IH]; [done|].
    unfold replace_dots in *. cbn [map_chars occurrences]. rewrite IH.
    by destruct c as [[] [] [] [] [] [] [] []]. }
  split; [done|]. split; [apply replace_dots_length|]. split.
  - induction method as [|c s IH]; [done|].
    unfold replace_dots in *. cbn [map_chars occurrences].
    apply Nat.eq_add_0 in Hdots as [_ Hdots]. rewrite (IH Hdots).
    destruct c as [[] [] [] [] [] [] [] []]; simpl; lia.
  - clear Hdots. induction method as [|c s IH]; [done|].
    unfold replace_dots in *. cbn [map_chars js_split]. rewrite IH.
    by destruct c as [[] [] [] [] [] [] [] []].
Qed.

(** ** The converter of arguments *)

Lemma str_eq_true v s : str_eq v s = true ↔ v = VStr s.
Proof.
  destruct v; simpl; try (split; done).
  rewrite String.eqb_eq. split; [by intros ->|by intros [= ->]].
Qed.

Lemma str_eq_false v s : str_eq v s = false ↔ v ≠ VStr s.
Proof.
  rewrite <- str_eq_true. by destruct (str_eq v s).
Qed.



(** The resolved type of a parameter, after the HACK, decides whether
    the converter reads [accepts.type[0]]. *)
Lemma toParameter_cases route o :
  let name := js_or (field o "name") (field o "arg") in
  let out0 := js_or (field o "model") (prepareDataType (field o "type")) in
  let out_type := if str_eq name "data" && str_eq out0 "object"
                  then VStr (methodOwner route) else out0 in
  if str_eq out_type "array" then
    match index0 (field o "type") with
    | Ok e => ∃ p, toParameter route o = Ok p ∧ param_type p = VStr "array" ∧
                   param_items p = Some (VObj {[ "type" := prepareDataType e ]})
    | Throw e => toParameter route o = Throw e
    end
  else ∃ p, toParameter route o = Ok p ∧ param_type p = out_type ∧
            param_type p ≠ VStr "array" ∧ param_items p = None.
Proof.
  intros name out0 out_type. unfold toParameter. cbv zeta.
  fold name. fold out0. fold out_type.
  destruct (str_eq out_type "array") eqn:Harr.
  - destruct (index0 (field o "type")); [|done].
    eexists. split; [done|]. simpl. split; [|done]. by apply str_eq_true.
  - eexists. split; [done|]. simpl. split; [done|]. split; [|done].
    by apply str_eq_false.
Qed.



(** What every parameter that the converter returns satisfies:
    [allowMultiple] is false; [paramType] is truthy, and is the
    [http.source] of the argument or one of 'path', 'query' and 'form';
    the parameter has [items] exactly when its type is 'array', and the
    [items] are an object with the one key [type], whose value is truthy
    and no array. *)
Theorem toParameter_invariants route o p :
  toParameter route o = Ok p →
  allowMultiple p = false ∧
  truthy (paramType p) = true ∧
  (paramType p = prop (field o "http") "source" ∨
   paramType p ∈ [VStr "path"; VStr "query"; VStr "form"]) ∧
  (param_type p = VStr "array" ↔ is_Some (param_items p)) ∧
  (∀ items, param_items p = Some items →
            ∃ e, items = VObj {[ "type" := e ]} ∧ truthy e = true ∧
                 isArray e = false).
Proof.
  intros Hp. split.
  { revert Hp. unfold toParameter.
    destruct (str_eq _ "array"); [destruct (index0 _)|]; by intros [= <-]. }
  pose proof (toParameter_paramType _ _ _ Hp) as Hpt. cbv zeta in Hpt.
  assert (paramType p = prop (field o "http") "source" ∧
          truthy (paramType p) = true ∨
          paramType p ∈ [VStr "path"; VStr "query"; VStr "form"]) as Hcases.
  { rewrite Hpt, !elem_of_cons. destruct (truthy (prop _ _)) eqn:Hs; [by left|].
    right. destruct (includes _ _); [by left|]. unfold defaultParamType.
    destruct (String.eqb _ _); tauto. }
  split.
  { destruct Hcases as [[_ ?]|Hin]; [done|].
    rewrite !elem_of_cons, elem_of_nil in Hin.
    by destruct Hin as [->|[->|[->|[]]]]. }
  split; [destruct Hcases as [[? _]|?]; [by left|by right]|].
  pose proof (toParameter_cases route o) as H. cbv zeta in H.
  destruct (str_eq _ "array").
  - destruct (index0 (field o "type")) as [e|e]; [|congruence].
    destruct H as (p' & Hp' & Htype & Hitems).
    assert (p' = p) as -> by congruence.
    rewrite Htype, Hitems. split; [by split|].
    intros items [= <-]. eexists. split; [done|].
    apply prepareDataType_scalar.
  - destruct H as (p' & Hp' & _ & Hne & Hitems).
    assert (p' = p) as -> by congruence.
    rewrite Hitems. split; [|done]. split; [done|]. by intros [? ?].
Qed.

Lemma toParameter_invariants_witness :
  ∃ p, toParameter plainRoute tagsParam = Ok p ∧
       allowMultiple p = false ∧
       paramType p = VStr "query" ∧
       param_type p = VStr "array" ∧
       param_items p = Some (VObj {[ "type" := VStr "a" ]}) ∧
       is_Some (param_items p).
Proof.
  destruct (toParameter_invariants plainRoute tagsParam
              (match toParameter plainRoute tagsParam with
               | Ok p => p
               | Throw _ =>
                   mkSwaggerParameter VUndef VUndef VUndef VUndef false
                     VUndef VUndef VUndef false None
               end))
    as (Hmultiple & _ & _ & Hitems & _); [vm_compute; reflexivity|].
  eexists. split; [vm_compute; reflexivity|].
  split; [exact Hmultiple|]. split; [vm_compute; reflexivity|].
  split; [vm_compute; reflexivity|]. split; [vm_compute; reflexivity|].
  apply Hitems. vm_compute. reflexivity.
Defined.





(** ** When a call throws *)














(** The sample call and its first step return. *)
Lemma renamed_returned :
  addRouteToAPIDeclaration renameRoute (Some widgetClass) (mkDocument [])
    renameStore = Ok (renamed.1, renamed.2).
Proof. vm_compute. exact eq_refl. Defined.

Lemma processed_returned :
  doRouteParameterHacks renameRoute (Some widgetClass) renameStore
    = Ok (processed.1, processed.2).
Proof. vm_compute. exact eq_refl. Defined.



(** ** Merging into the document *)

Lemma pushOperation_count p op l :
  p ∈ api_path <$> l →
  foldr (λ api n, length (operations api) + n)%nat 0%nat (pushOperation p op l)
  = S (foldr (λ api n, length (operations api) + n)%nat 0%nat l).
Proof.
  induction l as [|a l IH]; [by intros ?%elem_of_nil|].
  rewrite fmap_cons. cbn [pushOperation]. intros Hin.
  destruct (decide (api_path a = p)) as [Ha|Ha]; simpl.
  - rewrite length_app. simpl. lia.
  - apply elem_of_cons in Hin as [Hin|Hin]; [done|]. rewrite (IH Hin). lia.
Qed.

Lemma pushOperation_length p op l :
  length (pushOperation p op l) = length l.
Proof.
  induction l as [|a l IH]; [done|]. cbn [pushOperation].
  case_decide; simpl; [done|]. by rewrite IH.
Qed.

Lemma pushOperation_lookup p op l i a :
  l !! i = Some a →
  ∃ a', pushOperation p op l !! i = Some a' ∧ api_path a' = api_path a ∧
        operations a `prefix_of` operations a'.
Proof.
  revert i. induction l as [|b l IH]; intros i; [done|].
  cbn [pushOperation]. destruct (decide (api_path b = p)) as [Hb|Hb].
  - destruct i as [|i]; simpl.
    + intros [= ->]. eexists. split; [done|]. split; [done|].
      by apply prefix_app_r.
    + intros Hi. exists a. by repeat split.
  - destruct i as [|i]; simpl.
    + intros [= ->]. exists a. by repeat split.
    + apply IH.
Qed.

(** One call: what it does to the entries of the document. *)
Lemma call_grows (σ σ' : gmap nat (gmap string value)) route classDef doc doc' :
  addRouteToAPIDeclaration route classDef doc σ = Ok (doc', σ') →
  operationCount doc' = S (operationCount doc) ∧
  (length (apis doc) ≤ length (apis doc') ≤ S (length (apis doc)))%nat ∧
  convertPathFragments (route_path route) ∈ paths doc' ∧
  ∀ i a, apis doc !! i = Some a →
         ∃ a', apis doc' !! i = Some a' ∧ api_path a' = api_path a ∧
               operations a `prefix_of` operations a'.
Proof.
  intros (processedRoute & op & _ & _ & Hdoc)%addRouteToAPIDeclaration_inv.
  unfold operationCount, paths in *. rewrite Hdoc.
  destruct (decide (_ ∈ _)) as [Hin|Hin].
  - rewrite pushOperation_count, pushOperation_length, pushOperation_paths
      by done.
    split; [done|]. split; [lia|]. split; [done|].
    intros i a. apply pushOperation_lookup.
  - rewrite foldr_app, length_app, fmap_app. simpl.
    split.
    { generalize (apis doc). intros l. induction l as [|b l IH]; simpl; lia. }
    split; [lia|]. split.
    { apply elem_of_app. right. apply elem_of_cons. by left. }
    intros i a Hi. exists a. split; [|done]. by apply lookup_app_l_Some.
Qed.

(** A sequence of calls that all return adds one operation per call to
    the document, and at most one entry per call; no entry is removed. *)
Theorem operations_counted
  (σ0 σ : gmap nat (gmap string value)) calls doc doc' :
  addRoutes calls doc σ0 = Ok (doc', σ) →
  operationCount doc' = (operationCount doc + length calls)%nat ∧
  (length (apis doc) ≤ length (apis doc')
   ≤ length (apis doc) + length calls)%nat.
Proof.
  revert σ0 doc. induction calls as [|call calls IH]; intros σ0 doc.
  - simpl. rewrite mret_Ok. intros [= <- _]. lia.
  - rewrite addRoutes_cons.
    intros (doc1 & σ1 & (Hcount & Hlen & _)%call_grows & Hrest)%bind_Ok_inv.
    destruct (IH _ _ Hrest) as [Hcount' Hlen']. simpl. lia.
Qed.

Lemma operations_counted_witness :
  addRoutes [(findById, None); (deleteById, None)] (mkDocument []) ∅
    = Ok (mkDocument [mkAPI "/widgets/{id}" [findByIdOp; deleteByIdOp]], ∅) ∧
  operationCount
    (mkDocument [mkAPI "/widgets/{id}" [findByIdOp; deleteByIdOp]]) = 2%nat ∧
  (0 ≤ length [mkAPI "/widgets/{id}" [findByIdOp; deleteByIdOp]] ≤ 2)%nat.
Proof.
  split; [reflexivity|].
  apply (operations_counted ∅ ∅ [(findById, None); (deleteById, None)]
           (mkDocument [])
           (mkDocument [mkAPI "/widgets/{id}" [findByIdOp; deleteByIdOp]])).
  reflexivity.
Defined.

(** A sequence of calls that all return keeps every entry of the document
    in its place, with its path, and with its operations as the first
    ones of the operations it has afterwards; and afterwards the document
    has an entry for the converted path of each of the routes. *)
Theorem entries_only_grow
  (σ0 σ : gmap nat (gmap string value)) calls doc doc' :
  addRoutes calls doc σ0 = Ok (doc', σ) →
  (∀ i a, apis doc !! i = Some a →
          ∃ a', apis doc' !! i = Some a' ∧ api_path a' = api_path a ∧
                operations a `prefix_of` operations a') ∧
  (∀ call, call ∈ calls →
           convertPathFragments (route_path call.1) ∈ paths doc').
Proof.
  revert σ0 doc. induction calls as [|call calls IH]; intros σ0 doc.
  - simpl. rewrite mret_Ok. intros [= <- _]. split.
    + intros i a Hi. exists a. by repeat split.
    + by intros call ?%elem_of_nil.
  - rewrite addRoutes_cons.
    intros (doc1 & σ1 & (_ & _ & Hp & Hgrow)%call_grows & Hrest)%bind_Ok_inv.
    destruct (IH _ _ Hrest) as [Hgrow' Hpaths]. split.
    + intros i a Hi.
      destruct (Hgrow _ _ Hi) as (a1 & Hi1 & Hpath1 & Hops1).
      destruct (Hgrow' _ _ Hi1) as (a' & Hi' & Hpath' & Hops').
      exists a'. split; [done|]. split; [congruence|]. by etrans.
    + intros c [->|Hc]%elem_of_cons; [|by apply Hpaths].
      unfold paths in Hp. apply list_elem_of_fmap in Hp as (a1 & Hpa & Hin).
      apply list_elem_of_lookup in Hin as [i Hi].
      destruct (Hgrow' _ _ Hi) as (a' & Hi' & Hpath' & _).
      unfold paths. apply list_elem_of_fmap. exists a'.
      split; [congruence|]. by eapply list_elem_of_lookup_2.
Qed.

Lemma entries_only_grow_witness :
  addRoutes [(deleteById, None)]
      (mkDocument [mkAPI "/widgets/{id}" [findByIdOp]]) ∅
    = Ok (mkDocument [mkAPI "/widgets/{id}" [findByIdOp; deleteByIdOp]], ∅) ∧
  (∃ a', [mkAPI "/widgets/{id}" [findByIdOp; deleteByIdOp]] !! 0%nat = Some a' ∧
         api_path a' = "/widgets/{id}" ∧
         [findByIdOp] `prefix_of` operations a') ∧
  convertPathFragments "/widgets/:id"
    ∈ paths (mkDocument [mkAPI "/widgets/{id}" [findByIdOp; deleteByIdOp]]).
Proof.
  split; [reflexivity|].
  destruct (entries_only_grow ∅ ∅ [(deleteById, None)]
              (mkDocument [mkAPI "/widgets/{id}" [findByIdOp]])
              (mkDocument [mkAPI "/widgets/{id}" [findByIdOp; deleteByIdOp]])
              eq_refl) as [Hgrow Hpaths].
  split.
  - exact (Hgrow 0%nat (mkAPI "/widgets/{id}" [findByIdOp]) eq_refl).
  - apply (Hpaths (deleteById, None)). apply elem_of_cons. left. reflexivity.
Defined.

(** When the document has an entry with the converted path of the route,
    the new operation is put at the end of the operations of the first
    such entry, and every other entry of the document, also a later one
    with the same path, is as it was. *)
Theorem first_match_wins
  (σ σ' : gmap nat (gmap string value)) route classDef doc doc'
  pre existing post :
  addRouteToAPIDeclaration route classDef doc σ = Ok (doc', σ') →
  apis doc = pre ++ existing :: post →
  api_path existing = convertPathFragments (route_path route) →
  convertPathFragments (route_path route) ∉ api_path <$> pre →
  ∃ op, apis doc' =
          pre ++ mkAPI (api_path existing) (operations existing ++ [op]) :: post.
Proof.
  intros (processedRoute & op & _ & _ & Hdoc)%addRouteToAPIDeclaration_inv
         Hsplit Hpath Hpre.
  exists op. rewrite Hdoc, decide_True.
  - rewrite Hsplit, Hpath. by apply pushOperation_split.
  - unfold paths. rewrite Hsplit, fmap_app, fmap_cons, Hpath.
    apply elem_of_app. right. apply elem_of_cons. by left.
Qed.

Lemma first_match_wins_witness :
  addRouteToAPIDeclaration deleteById None duplicateDoc ∅
    = Ok (mkDocument [ mkAPI "/widgets" [];
                       mkAPI "/widgets/{id}" [findByIdOp; deleteByIdOp];
                       mkAPI "/widgets/{id}" [] ], ∅) ∧
  (convertPathFragments "/widgets/:id" ∉ api_path <$> [mkAPI "/widgets" []]) ∧
  ∃ op,
    [ mkAPI "/widgets" [];
      mkAPI "/widgets/{id}" [findByIdOp; deleteByIdOp];
      mkAPI "/widgets/{id}" [] ]
    = [mkAPI "/widgets" []]
        ++ mkAPI "/widgets/{id}" ([findByIdOp] ++ [op])
        :: [mkAPI "/widgets/{id}" []].
Proof.
  assert (convertPathFragments "/widgets/:id" ∉ api_path <$> [mkAPI "/widgets" []])
    as Hpre.
  { vm_compute. intros [H|H]%elem_of_cons; [discriminate H|].
    by apply elem_of_nil in H. }
  split; [reflexivity|]. split; [exact Hpre|].
  apply (first_match_wins ∅ ∅ deleteById None duplicateDoc
           (mkDocument [ mkAPI "/widgets" [];
                         mkAPI "/widgets/{id}" [findByIdOp; deleteByIdOp];
                         mkAPI "/widgets/{id}" [] ])
           [mkAPI "/widgets" []] (mkAPI "/widgets/{id}" [findByIdOp])
           [mkAPI "/widgets/{id}" []]);
    [reflexivity|reflexivity|reflexivity|exact Hpre].
Defined.

Lemma first_entry p (l : list API) :
  p ∈ api_path <$> l →
  ∃ pre existing post,
    l = pre ++ existing :: post ∧ (p ∉ api_path <$> pre) ∧
    api_path existing = p.
Proof.
  induction l as [|a l IH]; [by intros ?%elem_of_nil|].
  rewrite fmap_cons. intros Hin.
  destruct (decide (api_path a = p)) as [Ha|Ha].
  - exists [], a, l. split; [done|]. split; [apply not_elem_of_nil|done].
  - apply elem_of_cons in Hin as [Hin|Hin]; [done|].
    destruct (IH Hin) as (pre & existing & post & -> & Hpre & Hp).
    exists (a :: pre), existing, post. split; [done|]. split; [|done].
    rewrite fmap_cons, not_elem_of_cons. by split.
Qed.

Lemma call_lands
  (σ σ' : gmap nat (gmap string value)) route classDef doc doc' :
  addRouteToAPIDeclaration route classDef doc σ = Ok (doc', σ') →
  let p := convertPathFragments (route_path route) in
  ∃ processedRoute op pre api post,
    doRouteParameterHacks route classDef σ = Ok (processedRoute, σ') ∧
    routeToAPI processedRoute σ' = Ok (mkAPI p [op], σ') ∧
    apis doc' = pre ++ api :: post ∧ (p ∉ api_path <$> pre) ∧
    api_path api = p ∧ last (operations api) = Some op.
Proof.
  intros (processedRoute & op & Hhacks & Hapi & Hdoc)%addRouteToAPIDeclaration_inv
         p.
  fold p in Hapi, Hdoc. exists processedRoute, op.
  destruct (decide (p ∈ paths doc)) as [Hin|Hin].
  - destruct (first_entry _ _ Hin) as (pre & existing & post & Hsplit & Hpre & Hp).
    exists pre, (mkAPI p (operations existing ++ [op])), post.
    split; [done|]. split; [done|].
    rewrite Hdoc, Hsplit. split; [by apply pushOperation_split|].
    split; [done|]. split; [done|]. apply last_snoc.
  - exists (apis doc), (mkAPI p [op]), []. by rewrite Hdoc.
Qed.

(** After a call that returns, the new operation is the last one of the
    first entry of the document that has the converted path of the
    route. Its method is the converted verb, its nickname the name of
    the method with underscores for dots, its summary the description of
    the route; its notes are empty and it has no response messages. *)
Theorem operation_fixed_fields
  (σ σ' : gmap nat (gmap string value)) route classDef doc doc' :
  addRouteToAPIDeclaration route classDef doc σ = Ok (doc', σ') →
  ∃ pre api post op,
    apis doc' = pre ++ api :: post ∧
    (convertPathFragments (route_path route) ∉ api_path <$> pre) ∧
    api_path api = convertPathFragments (route_path route) ∧
    last (operations api) = Some op ∧
    op_method op = convertVerb (route_verb route) ∧
    nickname op = replace_dots (route_method route) ∧
    summary op = route_description route ∧
    notes op = "" ∧
    responseMessages op = [].
Proof.
  intros (processedRoute & op & pre & api & post & Hhacks & Hapi & Hdoc & Hpre
          & Hp & Hlast)%call_lands.
  exists pre, api, post, op. do 4 (split; [done|]).
  destruct (doRouteParameterHacks_fields _ _ _ _ _ Hhacks)
    as (_ & Hv & Hm & Hd).
  apply routeToAPI_inv in Hapi as (_ & returnDesc & params & _ & _ & [= _ ->]).
  simpl. by rewrite Hv, Hm, Hd.
Qed.

Lemma operation_fixed_fields_witness :
  addRouteToAPIDeclaration renameRoute (Some widgetClass) (mkDocument [])
    renameStore = Ok (renamed.1, renamed.2) ∧
  ∃ pre api post op,
    apis renamed.1 = pre ++ api :: post ∧
    api_path api = "/widgets/{id}/rename" ∧
    last (operations api) = Some op ∧
    op_method op = "POST" ∧
    nickname op = "Widget_prototype_rename" ∧
    summary op = VStr "Rename a widget" ∧
    notes op = "" ∧
    responseMessages op = [].
Proof.
  pose proof renamed_returned as Hok.
  split; [exact Hok|].
  destruct (operation_fixed_fields renameStore renamed.2
              renameRoute (Some widgetClass) (mkDocument []) renamed.1 Hok)
    as (pre & api & post & op & Hdoc & _ & Hpath & Hlast & Hmethod & Hnick
        & Hsummary & Hnotes & Hresp).
  exists pre, api, post, op.
  split; [exact Hdoc|]. split; [exact Hpath|]. split; [exact Hlast|].
  split; [exact Hmethod|]. split; [exact Hnick|]. split; [exact Hsummary|].
  split; [exact Hnotes|exact Hresp].
Defined.

(** A route without return descriptors ([returns] absent or empty)
    gives an operation of type 'void' with the empty string as items,
    with or without a class. *)
Theorem no_returns_void
  (σ σ' : gmap nat (gmap string value)) route classDef doc doc' :
  allocated σ (default [] (route_accepts route)) →
  default [] (route_returns route) = [] →
  addRouteToAPIDeclaration route classDef doc σ = Ok (doc', σ') →
  ∃ api op,
    api ∈ apis doc' ∧
    api_path api = convertPathFragments (route_path route) ∧
    last (operations api) = Some op ∧
    op_type op = VStr "void" ∧ op_items op = VStr "".
Proof.
  intros Hown Hnone
    (processedRoute & op & pre & api & post & Hhacks & Hapi & Hdoc & Hpre
     & Hp & Hlast)%call_lands.
  exists api, op. split; [rewrite Hdoc; set_solver|]. do 2 (split; [done|]).
  assert (allocated σ (default [] (route_returns route))) as Hrets.
  { rewrite Hnone. constructor. }
  destruct (doRouteParameterHacks_inv _ _ _ _ _ Hown Hrets Hhacks)
    as (seen & own1 & rets1 & σ1 & σ2 & _ & _ & Hrets1 & _ & _ & -> & _).
  rewrite Hnone in Hrets1. inversion Hrets1; subst rets1.
  apply routeToAPI_inv in Hapi as (_ & returnDesc & params & Hdesc & _ & [= ->]).
  simpl in Hdesc. by subst returnDesc.
Qed.

Lemma no_returns_void_witness :
  allocated idStore [1%nat] ∧
  default [] (route_returns idleRoute) = [] ∧
  ∃ doc' σ' api op,
    addRouteToAPIDeclaration idleRoute None (mkDocument []) idStore
      = Ok (doc', σ') ∧
    api ∈ apis doc' ∧
    api_path api = "/widgets/{idle}" ∧
    last (operations api) = Some op ∧
    op_type op = VStr "void" ∧ op_items op = VStr "".
Proof.
  assert (allocated idStore [1%nat]) as Hown.
  { apply Forall_cons_2; [by eexists|apply Forall_nil_2]. }
  split; [exact Hown|]. split; [reflexivity|].
  assert (∃ doc' σ', addRouteToAPIDeclaration idleRoute None (mkDocument [])
                       idStore = Ok (doc', σ')) as (doc' & σ' & Hok).
  { eexists _, _. vm_compute. exact eq_refl. }
  destruct (no_returns_void idStore σ' idleRoute None (mkDocument [])
              doc' Hown eq_refl Hok)
    as (api & op & Hin & Hpath & Hlast & Htype & Hitems).
  exists doc', σ', api, op. split; [exact Hok|].
  split; [exact Hin|]. split; [exact Hpath|]. split; [exact Hlast|].
  split; [exact Htype|exact Hitems].
Defined.

(** ** The return type without the fixup *)

Lemma fixedReturn_plain name o :
  ¬ (field o "arg" = VStr "data" ∧
     (field o "type" = VStr "object" ∨ field o "type" = VStr "array")) →
  fixedReturn name o = o.
Proof.
  intros Hplain. unfold fixedReturn.
  destruct (str_eq (field o "arg") "data") eqn:Harg; [|done].
  apply str_eq_true in Harg.
  destruct (str_eq (field o "type") "object") eqn:Hobj.
  { apply str_eq_true in Hobj. tauto. }
  destruct (str_eq (field o "type") "array") eqn:Harr; [|done].
  apply str_eq_true in Harr. tauto.
Qed.

(** When the first return descriptor does not ask for the class name
    (its [arg] is not 'data', or its type is neither 'object' nor
    'array'), the type of the operation is the descriptor's [model] when
    that is truthy and otherwise the data type mapper's image of its
    [type]; the items of the operation are the descriptor's [items]. The
    class is not looked at. *)
Theorem plain_return_type
  (σ σ' : gmap nat (gmap string value)) route classDef doc doc' returns o :
  allocated σ (default [] (route_accepts route)) →
  allocated σ (default [] (route_returns route)) →
  head (default [] (route_returns route)) = Some returns →
  σ !! returns = Some o →
  ¬ (field o "arg" = VStr "data" ∧
     (field o "type" = VStr "object" ∨ field o "type" = VStr "array")) →
  addRouteToAPIDeclaration route classDef doc σ = Ok (doc', σ') →
  ∃ api op,
    api ∈ apis doc' ∧
    api_path api = convertPathFragments (route_path route) ∧
    last (operations api) = Some op ∧
    op_type op = js_or (field o "model") (prepareDataType (field o "type")) ∧
    op_items op = field o "items".
Proof.
  intros Hown Hrets Hhead Ho Hplain
    (processedRoute & op & pre & api & post & Hhacks & Hapi & Hdoc & Hpre
     & Hp & Hlast)%call_lands.
  exists api, op. split; [rewrite Hdoc; set_solver|]. do 2 (split; [done|]).
  destruct (converted_return _ _ _ _ _ _ _ _ Hown Hrets Hhead Ho Hhacks Hapi)
    as (op' & [= <-] & Htype & Hitems).
  by rewrite (fixedReturn_plain _ _ Hplain) in Htype, Hitems.
Qed.

Lemma plain_return_type_witness :
  allocated countStore [] ∧
  allocated countStore [4%nat] ∧
  countStore !! 4%nat = Some countReturn ∧
  field countReturn "arg" ≠ VStr "data" ∧
  ∃ doc' σ' api op,
    addRouteToAPIDeclaration countRoute None (mkDocument []) countStore
      = Ok (doc', σ') ∧
    api ∈ apis doc' ∧
    api_path api = "/widgets/count" ∧
    last (operations api) = Some op ∧
    op_type op = VStr "double" ∧ op_items op = VUndef.
Proof.
  assert (allocated countStore []) as Hown by apply Forall_nil_2.
  assert (allocated countStore [4%nat]) as Hrets.
  { apply Forall_cons_2; [by eexists|apply Forall_nil_2]. }
  assert (field countReturn "arg" ≠ VStr "data") as Harg.
  { vm_compute. discriminate. }
  split; [exact Hown|]. split; [exact Hrets|]. split; [reflexivity|].
  split; [exact Harg|].
  assert (∃ doc' σ', addRouteToAPIDeclaration countRoute None (mkDocument [])
                       countStore = Ok (doc', σ')) as (doc' & σ' & Hok).
  { eexists _, _. vm_compute. exact eq_refl. }
  destruct (plain_return_type countStore σ' countRoute None (mkDocument [])
              doc' 4%nat countReturn Hown Hrets eq_refl eq_refl)
    as (api & op & Hin & Hpath & Hlast & Htype & Hitems);
    [intros [Hdata _]; exact (Harg Hdata)|exact Hok|].
  exists doc', σ', api, op. split; [exact Hok|].
  split; [exact Hin|]. split; [exact Hpath|]. split; [exact Hlast|].
  split; [exact Htype|exact Hitems].
Defined.

(** ** The objects of the caller *)

(** What a call that returns does to the objects of its caller: an
    argument descriptor of the shared constructor that the call appends
    and that passes the filter is left with translated keys, and every
    other object is left as it was, among them every descriptor of the
    route. No object is removed. *)
Theorem caller_objects_kept
  (σ σ' : gmap nat (gmap string value)) route classDef doc doc' :
  allocated σ (default [] (route_accepts route)) →
  allocated σ (default [] (route_returns route)) →
  allocated σ (appendedAccepts route classDef) →
  addRouteToAPIDeclaration route classDef doc σ = Ok (doc', σ') →
  (∀ l o, σ !! l = Some o →
          σ' !! l =
            Some (if bool_decide (l ∈ appendedAccepts route classDef) && shown o
                  then translated o else o)) ∧
  dom σ ⊆ dom σ'.
Proof.
  intros Hown Hrets Happ Hcall.
  assert (∀ l o, σ !! l = Some o →
          σ' !! l =
            Some (if bool_decide (l ∈ appendedAccepts route classDef) && shown o
                  then translated o else o)) as Hframe.
  { intros l o Hl.
    rewrite (call_store_frame _ _ _ _ _ _ l Hown Hrets Happ Hcall) by eauto.
    rewrite Hl. simpl.
    destruct (decide (l ∈ filter _ (appendedAccepts route classDef)))
      as [Hin|Hin].
    - apply list_elem_of_filter in Hin as [Hs Hin].
      unfold shownAt in Hs. rewrite Hl in Hs. simpl in Hs.
      rewrite bool_decide_eq_true_2 by done.
      by destruct (shown o).
    - case_bool_decide as Hin'; [|done].
      destruct (shown o) eqn:Hs; [|done].
      exfalso. apply Hin, list_elem_of_filter. split; [|done].
      unfold shownAt. rewrite Hl. simpl. by rewrite Hs. }
  split; [done|].
  intros l [o Hl]%elem_of_dom. apply elem_of_dom.
  rewrite (Hframe _ _ Hl). eauto.
Qed.

Lemma caller_objects_kept_witness :
  allocated renameStore [1%nat; 2%nat; 3%nat] ∧
  allocated renameStore [4%nat] ∧
  allocated renameStore [0%nat] ∧
  addRouteToAPIDeclaration renameRoute (Some widgetClass) (mkDocument [])
    renameStore = Ok (renamed.1, renamed.2) ∧
  renamed.2 !! 2%nat = Some nameParam ∧
  renamed.2 !! 4%nat = Some dataReturn ∧
  renamed.2 !! 0%nat = Some (translated ctorParam).
Proof.
  destruct renameStore_allocated as (Hown & Hrets & Hctor).
  split; [done|]. split; [done|]. split; [done|].
  pose proof renamed_returned as Hok.
  split; [exact Hok|].
  destruct (caller_objects_kept renameStore renamed.2
              renameRoute (Some widgetClass) (mkDocument []) renamed.1
              Hown Hrets Hctor Hok) as [Hkept _].
  split; [exact (Hkept 2%nat nameParam eq_refl)|].
  split; [exact (Hkept 4%nat dataReturn eq_refl)|].
  exact (Hkept 0%nat ctorParam eq_refl).
Defined.

(** The route that [doRouteParameterHacks] returns always has arrays as
    [accepts] and [returns]. It has as many return descriptors as the
    route of the caller, and they are new objects; its arguments are at
    most the route's own and the appended ones, and each is a new object
    or one of the appended descriptors of the shared constructor. No
    descriptor of the processed route has one of the LDL keys. *)
Theorem processed_route_fresh
  (σ σ' : gmap nat (gmap string value)) route classDef processedRoute :
  allocated σ (default [] (route_accepts route)) →
  allocated σ (default [] (route_returns route)) →
  doRouteParameterHacks route classDef σ = Ok (processedRoute, σ') →
  ∃ accepts returns,
    route_accepts processedRoute = Some accepts ∧
    route_returns processedRoute = Some returns ∧
    length returns = length (default [] (route_returns route)) ∧
    (length accepts ≤ length (default [] (route_accepts route))
                      + length (appendedAccepts route classDef))%nat ∧
    Forall (λ l, l ∉ dom σ) returns ∧
    Forall (λ l, (l ∉ dom σ) ∨ l ∈ appendedAccepts route classDef) accepts ∧
    Forall (λ l, ∃ o, σ' !! l = Some o ∧ ∀ k, k ∈ LDLKeys → o !! k = None)
           (accepts ++ returns).
Proof.
  intros Hown Hrets Hhacks.
  destruct (doRouteParameterHacks_inv _ _ _ _ _ Hown Hrets Hhacks)
    as (seen & own1 & rets1 & σ1 & σ2 & Hcopies & Hown1 & Hrets1 & Halloc1
        & Hfix & -> & Hσ').
  destruct Hcopies as (Hsub & Hent & _).
  assert (∀ ls ls1, copied seen ls ls1 →
            Forall (λ l, (l ∉ dom σ) ∧ is_Some (σ1 !! l)) ls1) as Hfresh.
  { intros ls ls1 Hls. apply Forall_forall.
    intros l1 [i Hi]%list_elem_of_lookup.
    destruct (Forall2_lookup_r _ _ _ _ _ Hls Hi) as (l0 & _ & Hseen).
    destruct (Hent _ _ Hseen) as (Hnew & o & _ & Ho). eauto. }
  assert (∀ l, is_Some (σ1 !! l) → is_Some (σ2 !! l)) as Hσ2.
  { intros l Hl. destruct (head rets1) as [r1|]; [|by subst].
    destruct Hfix as (o1 & _ & ->).
    destruct (decide (l = r1)) as [->|Hne].
    - rewrite lookup_insert_eq. eauto.
    - by rewrite lookup_insert_ne. }
  eexists _, _. split; [reflexivity|]. split; [reflexivity|]. simpl.
  split; [symmetry; by eapply Forall2_length|].
  split.
  { etrans; [apply length_filter|].
    rewrite length_app, (Forall2_length _ _ _ Hown1). lia. }
  split.
  { eapply Forall_impl; [exact (Hfresh _ _ Hrets1)|]. by intros l [? _]. }
  split.
  { apply Forall_forall.
    intros l [_ [Hin|Hin]%elem_of_app]%list_elem_of_filter; [|by right].
    left. pose proof (Hfresh _ _ Hown1) as Hall.
    rewrite Forall_forall in Hall. by apply Hall. }
  apply Forall_forall. intros l Hin.
  assert (is_Some (σ1 !! l)) as Hl1.
  { apply elem_of_app in Hin as [[_ Hin]%list_elem_of_filter|Hin].
    - unfold allocated in Halloc1. rewrite Forall_forall in Halloc1.
      by apply Halloc1.
    - pose proof (Hfresh _ _ Hrets1) as Hall.
      rewrite Forall_forall in Hall. by apply Hall. }
  destruct (Hσ2 _ Hl1) as [o Ho].
  exists (translated o). split.
  - rewrite Hσ', decide_True, Ho; [done|].
    by apply elem_of_app in Hin.
  - intros k. apply translated_source.
Qed.

Lemma processed_route_fresh_witness :
  allocated renameStore [1%nat; 2%nat; 3%nat] ∧
  allocated renameStore [4%nat] ∧
  doRouteParameterHacks renameRoute (Some widgetClass) renameStore
    = Ok (processed.1, processed.2) ∧
  ∃ accepts returns,
    route_accepts processed.1 = Some accepts ∧
    route_returns processed.1 = Some returns ∧
    length returns = 1%nat ∧
    Forall (λ l, l ∉ dom renameStore) returns.
Proof.
  destruct renameStore_allocated as (Hown & Hrets & _).
  split; [done|]. split; [done|].
  pose proof processed_returned as Hok.
  split; [exact Hok|].
  destruct (processed_route_fresh renameStore processed.2
              renameRoute (Some widgetClass) processed.1 Hown Hrets Hok)
    as (accepts & returns & Haccepts & Hreturns & Hlength & _ & Hfresh & _).
  exists accepts, returns.
  split; [exact Haccepts|]. split; [exact Hreturns|].
  split; [exact Hlength|exact Hfresh].
Defined.

(** ** More on translateKeys *)

(** [translateKeys] changes nothing in an object that has none of the
    keys doc, default, min and max. *)
Theorem translateKeys_swagger_object
  (σ : gmap nat (gmap string value)) object o :
  σ !! object = Some o →
  (∀ LDLKey, LDLKey ∈ LDLKeys → o !! LDLKey = None) →
  translateKeys object σ = Ok (object, σ).
Proof.
  intros Hl Habsent.
  rewrite (translateKeys_Ok _ _ _ Hl), translated_id by done.
  by rewrite insert_id.
Qed.

Lemma translateKeys_swagger_object_witness :
  idStore !! 1%nat = Some idParam ∧
  (∀ LDLKey, LDLKey ∈ LDLKeys → idParam !! LDLKey = None) ∧
  translateKeys 1%nat idStore = Ok (1%nat, idStore).
Proof.
  assert (∀ LDLKey, LDLKey ∈ LDLKeys → idParam !! LDLKey = None) as Habsent.
  { intros LDLKey Hin. vm_compute in Hin.
    repeat (apply elem_of_cons in Hin as [->|Hin]; [reflexivity|]).
    by apply elem_of_nil in Hin. }
  split; [reflexivity|]. split; [exact Habsent|].
  apply (translateKeys_swagger_object idStore 1%nat idParam);
    [reflexivity|exact Habsent].
Defined.

Lemma translateKey_comm o e1 e2 :
  e1 ∈ KEY_TRANSLATIONS → e2 ∈ KEY_TRANSLATIONS →
  translateKey (translateKey o e1) e2 = translateKey (translateKey o e2) e1.
Proof.
  unfold KEY_TRANSLATIONS. intros H1 H2.
  repeat (apply elem_of_cons in H1 as [->|H1]);
    try (by apply elem_of_nil in H1);
    repeat (apply elem_of_cons in H2 as [->|H2]);
    try (by apply elem_of_nil in H2);
    try reflexivity;
    apply map_eq; intros k;
    rewrite !translateKey_lookup, !translateKey_field; simpl;
    repeat case_decide; simplify_eq; done.
Qed.

Lemma foldl_translateKey_perm o es es' :
  es ≡ₚ es' → Forall (λ e, e ∈ KEY_TRANSLATIONS) es →
  foldl translateKey o es = foldl translateKey o es'.
Proof.
  intros Hperm. revert o.
  induction Hperm as [|e es es' Hperm IH|e1 e2 es|es1 es2 es3 H12 IH12 H23 IH23];
    intros o Hall.
  - done.
  - simpl. apply IH. by eapply Forall_cons_1.
  - simpl. apply Forall_cons in Hall as [H1 [H2 _]%Forall_cons].
    by rewrite (translateKey_comm o e1 e2).
  - rewrite IH12 by done. apply IH23. by rewrite <- H12.
Qed.

(** The result of [translateKeys] does not depend on the order in which
    the keys of the table are visited. *)
Theorem translateKeys_any_order
  (σ : gmap nat (gmap string value)) object o keys :
  keys ≡ₚ KEY_TRANSLATIONS →
  σ !! object = Some o →
  (forEach (translateKey_at object) keys;; mret object) σ =
    translateKeys object σ.
Proof.
  intros Hperm Hl.
  rewrite (translateKeys_Ok _ _ _ Hl).
  rewrite (bind_Ok _ _ _ _ _ (forEach_translateKey σ object o keys Hl)).
  rewrite mret_Ok. unfold translated.
  rewrite (foldl_translateKey_perm o keys KEY_TRANSLATIONS); [done..|].
  rewrite Hperm. apply Forall_forall. auto.
Qed.

Lemma translateKeys_any_order_witness :
  reverse KEY_TRANSLATIONS ≡ₚ KEY_TRANSLATIONS ∧
  limitStore !! 7%nat = Some limitParam ∧
  (forEach (translateKey_at 7%nat) (reverse KEY_TRANSLATIONS);; mret 7%nat)
    limitStore = translateKeys 7%nat limitStore.
Proof.
  split; [apply reverse_Permutation|]. split; [reflexivity|].
  apply (translateKeys_any_order limitStore 7%nat limitParam
           (reverse KEY_TRANSLATIONS));
    [apply reverse_Permutation|reflexivity].
Defined.
